(** * The process supervisor of package allegory (process.go, state.go)

    A shallow embedding of the process runtime: the registry globals
    [_processes] and [_messengers], the mutex [_processMutex], the
    goroutine started by [RunProcess], the notification functions and the
    state change of [NewStateNow]; and of the event bus of package bus
    (bus/bus.go), in module [Bus].

    Go code is embedded as functions of a small monad over a [World]
    record.  A call either returns, panics, or does not return (blocked on
    a channel or on the mutex, or still spinning when its fuel ran out).
    Every call of a user method and every access to the registry is
    recorded in the world's [trace], in the order in which it happens. *)

From stdpp Require Import gmap list strings pretty.

Open Scope string_scope.
Open Scope list_scope.

(** ** Values sent through mailboxes *)

(** The dynamic type of an [interface{}] value, as far as the type switch
    of the supervisor can tell types apart. *)
Inductive gotype : Type :=
| Tquit                       (* struct type quit *)
| Ttick                       (* struct type tick *)
| Tnamed (name : string)      (* any other non-pointer type *)
| Tptr (elem : gotype).       (* pointer to elem *)

(** A message is the nil interface or a value of some dynamic type. *)
Inductive message : Type :=
| NilMsg
| Msg (dyn : gotype) (payload : nat).

(** [&quit{}], [&tick{}], [quit{}] and [tick{}]. *)
Definition ptr_quit : message := Msg (Tptr Tquit) 0.
Definition ptr_tick : message := Msg (Tptr Ttick) 0.
Definition val_quit : message := Msg Tquit 0.
Definition val_tick : message := Msg Ttick 0.

(** The three arms of [switch msg := <-ch; msg.(type)]. *)
Inductive arm : Type := CaseQuit | CaseTick | Default.

Definition type_switch (msg : message) : arm :=
  match msg with
  | Msg (Tptr Tquit) _ => CaseQuit
  | Msg (Tptr Ttick) _ => CaseTick
  | _ => Default
  end.

(** ** Processes *)

(** References to process objects, channels, game states and views. *)
Abbreviation ref := nat (only parsing).
Abbreviation chan := nat (only parsing).

(** A non-nil [error] is the text of its [Error()]. *)
Abbreviation error := string (only parsing).

(** What [processVal.FieldByName("BaseProcess")] followed by the type
    assertion [base.Interface().(BaseProcess)] finds in a process value. *)
Inductive field_lookup (St : Type) : Type :=
| NoSuchField                                     (* base.IsValid() is false *)
| OtherField                                      (* the assertion fails *)
| BaseProcessValue (OnComplete : option (St -> St)).
Arguments NoSuchField {St}.
Arguments OtherField {St}.
Arguments BaseProcessValue {St} OnComplete.

(** The method set of a process object whose fields are a value of [St].
    Methods read and write the fields of their own receiver only.
    [NextProcess] is [Some] exactly for the types that implement
    [ProcessContinuer]; a nil [Process] result is [None]. *)
Record Process (St : Type) : Type := mkProcess {
  InitProcess : St -> option error * St;
  HandleMessage : message -> St -> option error * St;
  Tick : St -> (bool * option error) * St;
  CleanupProcess : St -> St;
  NextProcess : option (St -> option ref * St);
  BaseProcessField : St -> field_lookup St
}.
Arguments mkProcess {St}.
Arguments InitProcess {St}.
Arguments HandleMessage {St}.
Arguments Tick {St}.
Arguments CleanupProcess {St}.
Arguments NextProcess {St}.
Arguments BaseProcessField {St}.

(** ** Events *)

Inductive event : Type :=
| ERunProcess (p : ref)                              (* RunProcess(p) entered *)
| EInitProcess (p : ref) (err : option error)
| EReceive (p : ref) (msg : message)                 (* msg := <-ch *)
| ETick (p : ref) (more : bool) (err : option error)
| EHandleMessage (p : ref) (msg : message) (err : option error)
| ECleanupProcess (p : ref)
| EOnComplete (p : ref)
| ENextProcess (p : ref) (next : option ref)
| EMakeChan (ch : chan)
| EStoreMessenger (p : ref) (ch : chan)              (* _messengers[p] = ch *)
| EDeleteMessenger (p : ref)                         (* delete(_messengers, p) *)
| ELock
| EUnlock
| ESetProcesses (l : list ref)                       (* _processes = l *)
| EGo (p : ref) (ch : chan)                          (* go func() {...}() *)
| EClose (ch : chan)
| ECleanupState (s : ref)
| EInitState (s : ref)
| ECleanupView (v : ref)
| EInitView (v : ref)
| EAssignStateField (s v : ref).

(** ** The world *)

(** The local variables of one goroutine started by [RunProcess]. *)
Record goroutine : Type := mkGoroutine {
  g_proc : ref;
  g_chan : chan;
  g_alive : bool;
  g_carryOn : bool
}.

Record World (St : Type) : Type := mkWorld {
  objs : ref -> St;                   (* fields of the process objects *)
  _messengers : gmap nat nat;         (* map[Process]chan interface{} *)
  _processes : list ref;
  _processMutex : bool;               (* true while held *)
  closed : gset nat;                  (* channels that were closed *)
  next_chan : chan;                   (* next channel make() returns *)
  goroutines : list goroutine;
  _state : option ref;
  _views : list ref;
  stderr : list string;
  trace : list event
}.
Arguments mkWorld {St}.
Arguments objs {St}.
Arguments _messengers {St}.
Arguments _processes {St}.
Arguments _processMutex {St}.
Arguments closed {St}.
Arguments next_chan {St}.
Arguments goroutines {St}.
Arguments _state {St}.
Arguments _views {St}.
Arguments stderr {St}.
Arguments trace {St}.

(** How a call ends. *)
Inductive result (St A : Type) : Type :=
| Ret (a : A) (w : World St)      (* returns a *)
| Panic (w : World St)            (* panics *)
| Hang (w : World St).            (* does not return *)
Arguments Ret {St A}.
Arguments Panic {St A}.
Arguments Hang {St A}.

Definition world_of {St A} (r : result St A) : World St :=
  match r with Ret _ w => w | Panic w => w | Hang w => w end.

Section Runtime.

Variable St : Type.

(** The method set of each process object. *)
Variable procs : ref -> Process St.

Abbreviation W := (World St).

Definition M (A : Type) : Type := W -> result St A.

Definition ret {A} (a : A) : M A := fun w => Ret a w.

Definition bind {A B} (c : M A) (k : A -> M B) : M B :=
  fun w => match c w with
           | Ret a w' => k a w'
           | Panic w' => Panic w'
           | Hang w' => Hang w'
           end.

Notation "x <- c ;; k" := (bind c (fun x => k))
  (at level 100, c at next level, right associativity).
Notation "c ;;; k" := (bind c (fun _ => k))
  (at level 100, right associativity).

(** *** Field updates *)

Definition set_objs (f : ref -> St) (w : W) : W :=
  mkWorld f (_messengers w) (_processes w) (_processMutex w) (closed w)
          (next_chan w) (goroutines w) (_state w) (_views w) (stderr w) (trace w).
Definition set_messengers (m : gmap nat nat) (w : W) : W :=
  mkWorld (objs w) m (_processes w) (_processMutex w) (closed w)
          (next_chan w) (goroutines w) (_state w) (_views w) (stderr w) (trace w).
Definition set_processes (l : list ref) (w : W) : W :=
  mkWorld (objs w) (_messengers w) l (_processMutex w) (closed w)
          (next_chan w) (goroutines w) (_state w) (_views w) (stderr w) (trace w).
Definition set_mutex (b : bool) (w : W) : W :=
  mkWorld (objs w) (_messengers w) (_processes w) b (closed w)
          (next_chan w) (goroutines w) (_state w) (_views w) (stderr w) (trace w).
Definition set_closed (c : gset nat) (w : W) : W :=
  mkWorld (objs w) (_messengers w) (_processes w) (_processMutex w) c
          (next_chan w) (goroutines w) (_state w) (_views w) (stderr w) (trace w).
Definition set_next_chan (n : chan) (w : W) : W :=
  mkWorld (objs w) (_messengers w) (_processes w) (_processMutex w) (closed w)
          n (goroutines w) (_state w) (_views w) (stderr w) (trace w).
Definition set_goroutines (g : list goroutine) (w : W) : W :=
  mkWorld (objs w) (_messengers w) (_processes w) (_processMutex w) (closed w)
          (next_chan w) g (_state w) (_views w) (stderr w) (trace w).
Definition set_state (s : option ref) (w : W) : W :=
  mkWorld (objs w) (_messengers w) (_processes w) (_processMutex w) (closed w)
          (next_chan w) (goroutines w) s (_views w) (stderr w) (trace w).
Definition set_views (v : list ref) (w : W) : W :=
  mkWorld (objs w) (_messengers w) (_processes w) (_processMutex w) (closed w)
          (next_chan w) (goroutines w) (_state w) v (stderr w) (trace w).
Definition set_stderr (s : list string) (w : W) : W :=
  mkWorld (objs w) (_messengers w) (_processes w) (_processMutex w) (closed w)
          (next_chan w) (goroutines w) (_state w) (_views w) s (trace w).
Definition set_trace (t : list event) (w : W) : W :=
  mkWorld (objs w) (_messengers w) (_processes w) (_processMutex w) (closed w)
          (next_chan w) (goroutines w) (_state w) (_views w) (stderr w) t.

(** *** Primitive actions *)

Definition log (e : event) : M unit :=
  fun w => Ret tt (set_trace (trace w ++ [e]) w).

(** [fmt.Fprintf(os.Stderr, ...)] with the formatted line. *)
Definition eprint (line : string) : M unit :=
  fun w => Ret tt (set_stderr (stderr w ++ [line]) w).

(** The fields of object [p] become [s]. *)
Definition store (p : ref) (s : St) (f : ref -> St) : ref -> St :=
  fun q => if Nat.eqb q p then s else f q.

(** Run a method of [p] on the fields of [p] and store the new fields. *)
Definition call {A} (p : ref) (method : St -> A * St) : M A :=
  fun w => let '(a, s) := method (objs w p) in
           Ret a (set_objs (store p s (objs w)) w).

Definition Lock : M unit :=
  fun w => if _processMutex w then Hang w
           else log ELock (set_mutex true w).

Definition Unlock : M unit :=
  fun w => log EUnlock (set_mutex false w).

(** [_processes = l]. *)
Definition assign_processes (l : list ref) : M unit :=
  fun w => log (ESetProcesses l) (set_processes l w).

(** [make(chan interface{})]. *)
Definition make_chan : M chan :=
  fun w => let ch := next_chan w in
           (log (EMakeChan ch) ;;; ret ch) (set_next_chan (S ch) w).

(** [close(ch)]: closing a closed channel panics. *)
Definition close (ch : chan) : M unit :=
  fun w => if decide (ch ∈ closed w) then Panic w
           else log (EClose ch) (set_closed ({[ch]} ∪ closed w) w).

(** [defer f()]: [f] runs when the body returns and when it panics; a
    panic goes on after it. *)
Definition defer (body deferred : M unit) : M unit :=
  fun w => match body w with
           | Ret _ w' => deferred w'
           | Panic w' => (deferred ;;; Panic) w'
           | Hang w' => Hang w'
           end.

(** [defer func() { recover() }()]: a panic of the body is swallowed and
    the function returns normally. *)
Definition defer_recover (body : M unit) : M unit :=
  fun w => match body w with
           | Ret _ w' => Ret tt w'
           | Panic w' => Ret tt w'
           | Hang w' => Hang w'
           end.

(** *** Registry access *)

(** [_messengers[p] = ch]. *)
Definition store_messenger (p : ref) (ch : chan) : M unit :=
  fun w => log (EStoreMessenger p ch) (set_messengers (<[p := ch]> (_messengers w)) w).

(** [delete(_messengers, p)]. *)
Definition delete_messenger (p : ref) : M unit :=
  fun w => log (EDeleteMessenger p) (set_messengers (delete p (_messengers w)) w).

(** The first index [i] with [l[i] == p]. *)
Fixpoint index_of (p : ref) (l : list ref) : option nat :=
  match l with
  | [] => None
  | process :: rest =>
      if Nat.eqb process p then Some 0
      else match index_of p rest with
           | Some i => Some (S i)
           | None => None
           end
  end.

(** [for _, x := range l { body(x) }], over the elements [l] has when the
    loop starts. *)
Fixpoint for_each {A} (l : list A) (body : A -> M unit) : M unit :=
  match l with
  | [] => ret tt
  | x :: rest => body x ;;; for_each rest body
  end.

(** *** Goroutines *)

(** [go func() {...}()] in [RunProcess]: the new goroutine starts with
    [alive = true] and [carryOn = true] and goes to receive on [ch]. *)
Definition go (p : ref) (ch : chan) : M unit :=
  fun w => log (EGo p ch)
             (set_goroutines (goroutines w ++ [mkGoroutine p ch true true]) w).

(** The goroutine that owns [ch]. *)
Definition goroutine_of (ch : chan) (w : W) : option goroutine :=
  List.find (fun g => Nat.eqb (g_chan g) ch) (goroutines w).

(** The goroutine of [ch] when it is in its loop, at [msg := <-ch]. *)
Definition receiver (ch : chan) (w : W) : option goroutine :=
  match goroutine_of ch w with
  | Some g => if g_alive g then Some g else None
  | None => None
  end.

(** The goroutine of [ch] when it has left its loop. *)
Definition leaver (ch : chan) (w : W) : option goroutine :=
  match goroutine_of ch w with
  | Some g => if g_alive g then None else Some g
  | None => None
  end.

(** Assignment to the loop variables of the goroutine of [ch]. *)
Definition set_flags (ch : chan) (alive carryOn : bool) : M unit :=
  fun w => Ret tt
    (set_goroutines
       (map (fun g => if Nat.eqb (g_chan g) ch
                      then mkGoroutine (g_proc g) ch alive carryOn else g)
            (goroutines w)) w).

(** The goroutine of [ch] ends. *)
Definition exit_goroutine (ch : chan) : M unit :=
  fun w => Ret tt
    (set_goroutines
       (List.filter (fun g => negb (Nat.eqb (g_chan g) ch)) (goroutines w)) w).

Definition nl : string := String (Ascii.ascii_of_nat 10) "".

(** *** RunProcess, up to the [go] statement *)

Definition RunProcess (p : ref) : M unit :=
  log (ERunProcess p) ;;;
  err <- call p (InitProcess (procs p)) ;;
  log (EInitProcess p err) ;;;
  match err with
  | Some e =>
      eprint ("error during process initialization: " +:+ e +:+ nl)
  | None =>
      ch <- make_chan ;;
      store_messenger p ch ;;;
      Lock ;;;
      (fun w => assign_processes (_processes w ++ [p]) w) ;;;
      Unlock ;;;
      go p ch
  end.

(** *** The goroutine of RunProcess *)

(** The body of [for alive { switch msg := <-ch; msg.(type) {...} }] once
    [msg] is received; the result is the new [(alive, carryOn)]. *)
Definition dispatch (p : ref) (msg : message) (alive carryOn : bool)
  : M (bool * bool) :=
  match type_switch msg with
  | CaseQuit => ret (false, false)
  | CaseTick =>
      r <- call p (Tick (procs p)) ;;
      log (ETick p (fst r) (snd r)) ;;;
      match snd r with
      | Some e =>
          eprint ("Process exited with error message '" +:+ e +:+ "'" +:+ nl) ;;;
          ret (false, false)
      | None => ret (fst r, carryOn)
      end
  | Default =>
      err <- call p (HandleMessage (procs p) msg) ;;
      log (EHandleMessage p msg err) ;;;
      match err with
      | Some e =>
          eprint ("Process handled " +:+ e
                  +:+ " with error message '%!s(MISSING)'" +:+ nl) ;;;
          ret (false, false)
      | None => ret (alive, carryOn)
      end
  end.

(** One pass of the loop of goroutine [g], which receives [msg]. *)
Definition receive (g : goroutine) (msg : message) : M unit :=
  log (EReceive (g_proc g) msg) ;;;
  r <- dispatch (g_proc g) msg (g_alive g) (g_carryOn g) ;;
  set_flags (g_chan g) (fst r) (snd r).

(** The reflection on [p] after [CleanupProcess]: the callback of an
    embedded [BaseProcess] value, when it is not nil. *)
Definition completion (p : ref) : M unit :=
  fun w => match BaseProcessField (procs p) (objs w p) with
           | BaseProcessValue (Some OnComplete) =>
               (log (EOnComplete p) ;;;
                call p (fun s => (tt, OnComplete s))) w
           | _ => Ret tt w
           end.

(** [if p, ok := p.(ProcessContinuer); carryOn && ok {...}]. *)
Definition chain (p : ref) (carryOn : bool) : M unit :=
  match NextProcess (procs p) with
  | Some next_process =>
      if carryOn then
        next <- call p next_process ;;
        log (ENextProcess p next) ;;;
        match next with
        | Some n => RunProcess n
        | None => ret tt
        end
      else ret tt
  | None => ret tt
  end.

(** The statements after the loop. *)
Definition after_loop (p : ref) (carryOn : bool) : M unit :=
  call p (fun s => (tt, CleanupProcess (procs p) s)) ;;;
  log (ECleanupProcess p) ;;;
  completion p ;;;
  chain p carryOn.

(** The deferred function of the goroutine. *)
Definition deregister (p : ref) (ch : chan) : M unit :=
  Lock ;;;
  (fun w => match index_of p (_processes w) with
            | Some i =>
                assign_processes
                  (take i (_processes w) ++ drop (S i) (_processes w)) w
            | None => Ret tt w
            end) ;;;
  Unlock ;;;
  delete_messenger p ;;;
  close ch.

(** The goroutine of [ch], once out of its loop, runs to its end. *)
Definition finish (ch : chan) : M unit :=
  fun w => match leaver ch w with
           | Some g =>
               (defer (after_loop (g_proc g) (g_carryOn g))
                      (deregister (g_proc g) ch) ;;;
                exit_goroutine ch) w
           | None => Hang w
           end.

(** The goroutine of [ch] receives the messages of [mailbox] one after
    the other for as long as its loop runs. *)
Fixpoint feed (ch : chan) (mailbox : list message) : M unit :=
  match mailbox with
  | [] => ret tt
  | msg :: rest =>
      fun w => match receiver ch w with
               | Some g => (receive g msg ;;; feed ch rest) w
               | None => Ret tt w
               end
  end.

(** A whole run of [p]: [RunProcess(p)], then its goroutine is sent the
    messages of [mailbox] and runs to its end.  When [mailbox] does not
    end the loop the goroutine stays blocked in [<-ch]. *)
Definition run (p : ref) (mailbox : list message) : M unit :=
  fun w => (RunProcess p ;;; feed (next_chan w) mailbox ;;;
            finish (next_chan w)) w.

(** *** Notifications *)

(** [ch <- msg] on an unbuffered channel: panics when [ch] is closed,
    hands [msg] to the goroutine receiving on [ch], and blocks while
    there is none. *)
Definition send (ch : chan) (msg : message) : M unit :=
  fun w => if decide (ch ∈ closed w) then Panic w
           else match receiver ch w with
                | Some g => receive g msg w
                | None => Hang w
                end.

Definition NotifyProcess (p : ref) (msg : message) : M unit :=
  defer_recover
    (fun w => match _messengers w !! p with
              | Some ch => send ch msg w
              | None => Ret tt w
              end).

Definition NotifyAllProcesses (msg : message) : M unit :=
  fun w => for_each (_processes w) (fun process => NotifyProcess process msg) w.

Definition NotifyWhere (msg : message) (filter : ref -> bool) : M unit :=
  fun w => for_each (_processes w)
             (fun process => if filter process
                             then NotifyProcess process msg else ret tt) w.

Definition Close (p : ref) : M unit := NotifyProcess p ptr_quit.

(** *** Game states *)

(** [runtime.Gosched()]: the goroutines that are out of their loops run
    to their ends; those in their loops stay blocked in [<-ch]. *)
Definition Gosched : M unit :=
  fun w => for_each (List.filter (fun g => negb (g_alive g)) (goroutines w))
                    (fun g => finish (g_chan g)) w.

(** [for _processes.Len() > 0 { runtime.Gosched() }], at most [fuel]
    times round the loop. *)
Fixpoint wait_processes (fuel : nat) : M unit :=
  fun w => if Nat.ltb 0 (length (_processes w)) then
             match fuel with
             | 0 => Hang w
             | S n => (Gosched ;;; wait_processes n) w
             end
           else Ret tt w.

Definition setState (state : ref) (views : list ref) : M unit :=
  (fun w => match _state w with
            | Some old => log (ECleanupState old) w
            | None => Ret tt w
            end) ;;;
  (fun w => for_each (_views w) (fun v => log (ECleanupView v)) w) ;;;
  (fun w => Ret tt (set_state (Some state) w)) ;;;
  log (EInitState state) ;;;
  (fun w => Ret tt (set_views [] w)) ;;;
  for_each views
    (fun v => log (EAssignStateField state v) ;;;
              log (EInitView v) ;;;
              (fun w => Ret tt (set_views (_views w ++ [v]) w))).

Definition NewStateNow (fuel : nat) (state : ref) (views : list ref) : M unit :=
  NotifyAllProcesses val_quit ;;;
  wait_processes fuel ;;;
  setState state views.

End Runtime.

Arguments M St A : clear implicits.
Arguments ret {St A} a w.
Arguments bind {St A B} c k w.
Arguments set_objs {St} f w.
Arguments set_messengers {St} m w.
Arguments set_processes {St} l w.
Arguments set_mutex {St} b w.
Arguments set_closed {St} c w.
Arguments set_next_chan {St} n w.
Arguments set_goroutines {St} g w.
Arguments set_state {St} s w.
Arguments set_views {St} v w.
Arguments set_stderr {St} s w.
Arguments set_trace {St} t w.
Arguments log {St} e w.
Arguments eprint {St} line w.
Arguments store {St} p s f q.
Arguments call {St A} p method w.
Arguments Lock {St} w.
Arguments Unlock {St} w.
Arguments assign_processes {St} l w.
Arguments make_chan {St} w.
Arguments close {St} ch w.
Arguments defer {St} body deferred w.
Arguments defer_recover {St} body w.
Arguments store_messenger {St} p ch w.
Arguments delete_messenger {St} p w.
Arguments for_each {St A} l body w.
Arguments go {St} p ch w.
Arguments goroutine_of {St} ch w.
Arguments receiver {St} ch w.
Arguments leaver {St} ch w.
Arguments set_flags {St} ch alive carryOn w.
Arguments exit_goroutine {St} ch w.
Arguments RunProcess {St} procs p w.
Arguments dispatch {St} procs p msg alive carryOn w.
Arguments receive {St} procs g msg w.
Arguments completion {St} procs p w.
Arguments chain {St} procs p carryOn w.
Arguments after_loop {St} procs p carryOn w.
Arguments deregister {St} p ch w.
Arguments finish {St} procs ch w.
Arguments feed {St} procs ch mailbox w.
Arguments run {St} procs p mailbox w.
Arguments send {St} procs ch msg w.
Arguments NotifyProcess {St} procs p msg w.
Arguments NotifyAllProcesses {St} procs msg w.
Arguments NotifyWhere {St} procs msg filter w.
Arguments Close {St} procs p w.
Arguments Gosched {St} procs w.
Arguments wait_processes {St} procs fuel w.
Arguments setState {St} state views w.
Arguments NewStateNow {St} procs fuel state views w.

(** ** What a run writes to the trace *)

Section Shapes.

Context {St : Type} (procs : ref -> Process St).

(** The events of [RunProcess(p)] in world [w] when [InitProcess]
    returns [err]. *)
Definition RunProcess_events (p : ref) (err : option error) (w : World St)
  : list event :=
  match err with
  | Some e => [ERunProcess p; EInitProcess p (Some e)]
  | None =>
      [ERunProcess p; EInitProcess p None; EMakeChan (next_chan w);
       EStoreMessenger p (next_chan w); ELock;
       ESetProcesses (_processes w ++ [p]); EUnlock; EGo p (next_chan w)]
  end.

(** The fields of [p] after [CleanupProcess]. *)
Definition after_cleanup (p : ref) (w : World St) : St :=
  CleanupProcess (procs p) (objs w p).

(** The callback that the reflection finds after [CleanupProcess]. *)
Definition found_callback (p : ref) (w : World St) : option (St -> St) :=
  match BaseProcessField (procs p) (after_cleanup p w) with
  | BaseProcessValue callback => callback
  | _ => None
  end.

Definition after_completion (p : ref) (w : World St) : St :=
  match found_callback p w with
  | Some OnComplete => OnComplete (after_cleanup p w)
  | None => after_cleanup p w
  end.

Definition completion_events (p : ref) (w : World St) : list event :=
  match found_callback p w with
  | Some _ => [EOnComplete p]
  | None => []
  end.

(** The result of [NextProcess()] when the goroutine calls it. *)
Definition queried (p : ref) (carryOn : bool) (w : World St)
  : option (option ref * St) :=
  match NextProcess (procs p) with
  | Some next_process =>
      if carryOn then Some (next_process (after_completion p w)) else None
  | None => None
  end.

(** The result of [InitProcess] of the successor [n], called after
    [NextProcess] left the fields [s] in [p]. *)
Definition successor_init (p : ref) (s : St) (n : ref) (w : World St)
  : option error :=
  fst (InitProcess (procs n) (store p s (objs w) n)).

Definition chain_events (p : ref) (carryOn : bool) (w : World St) : list event :=
  match queried p carryOn w with
  | Some (Some n, s) =>
      ENextProcess p (Some n) :: RunProcess_events n (successor_init p s n w) w
  | Some (None, _) => [ENextProcess p None]
  | None => []
  end.

(** The successor that [RunProcess] appends to [_processes], if any. *)
Definition registered_successor (p : ref) (carryOn : bool) (w : World St)
  : list ref :=
  match queried p carryOn w with
  | Some (Some n, s) =>
      match successor_init p s n w with
      | None => [n]
      | Some _ => []
      end
  | _ => []
  end.

(** [l] without its first [p]. *)
Definition without (p : ref) (l : list ref) : list ref :=
  match index_of p l with
  | Some i => take i l ++ drop (S i) l
  | None => l
  end.

Definition deregister_events (p : ref) (ch : chan) (l : list ref) : list event :=
  ELock ::
  match index_of p l with
  | Some i => [ESetProcesses (take i l ++ drop (S i) l)]
  | None => []
  end ++ [EUnlock; EDeleteMessenger p; EClose ch].

(** The events of the goroutine of [p] and [ch] from the end of its loop
    to its own end. *)
Definition finish_events (p : ref) (ch : chan) (carryOn : bool) (w : World St)
  : list event :=
  ECleanupProcess p :: completion_events p w ++ chain_events p carryOn w
  ++ deregister_events p ch (_processes w ++ registered_successor p carryOn w).

End Shapes.

(** Two worlds with the same registry, channels and goroutines. *)
Definition same_registry {St} (w w' : World St) : Prop :=
  _processes w' = _processes w
  /\ _messengers w' = _messengers w
  /\ _processMutex w' = _processMutex w
  /\ closed w' = closed w
  /\ next_chan w' = next_chan w
  /\ goroutines w' = goroutines w.

(** No call holds the mutex, and the channels that [make] has yet to
    return are not in use. *)
Definition ready {St} (w : World St) : Prop :=
  _processMutex w = false
  /\ forall ch, next_chan w <= ch -> goroutine_of ch w = None /\ ch ∉ closed w.

(** How often [t] has an event that [select] selects. *)
Definition count (select : event -> bool) (t : list event) : nat :=
  length (List.filter select t).

(** With [e] as the last event of a pass of the loop, the loop stops, and
    [carryOn] is the value given: the four ways out of the loop. *)
Definition stops (e : event) : option bool :=
  match e with
  | EReceive _ msg =>
      match type_switch msg with CaseQuit => Some false | _ => None end
  | ETick _ false None => Some true
  | ETick _ _ (Some _) => Some false
  | EHandleMessage _ _ (Some _) => Some false
  | _ => None
  end.

(** [(alive, carryOn)] after the loop wrote [t] to the trace. *)
Definition flags_after (t : list event) : bool * bool :=
  match last t with
  | Some e => match stops e with
              | Some carryOn => (false, carryOn)
              | None => (true, true)
              end
  | None => (true, true)
  end.

(** An event of the loop of the goroutine of [p]. *)
Definition loop_event_of (p : ref) (e : event) : bool :=
  match e with
  | EReceive q _ | ETick q _ _ | EHandleMessage q _ _ => Nat.eqb q p
  | _ => false
  end.

(** ** Sample processes and worlds *)

(** The methods of [*BaseProcess].  A bare [BaseProcess] has no field
    named BaseProcess. *)
Definition base_process : Process nat :=
  mkProcess (fun s => (None, s))
            (fun _ s => (None, s))
            (fun s => ((false, None), s))
            (fun s => s)
            None
            (fun _ => NoSuchField).

(** A process whose initialization fails. *)
Definition broken : Process nat :=
  mkProcess (fun s => (Some "no display", s))
            (fun _ s => (None, s))
            (fun s => ((false, None), s))
            (fun s => s)
            None
            (fun _ => NoSuchField).

(** A struct that embeds [BaseProcess] by value with a callback set,
    counts its fields down on each tick, rejects the nil message and
    names [next] as its successor. *)
Definition worker (next : ref) : Process nat :=
  mkProcess (fun s => (None, s))
            (fun msg s => match msg with
                          | NilMsg => (Some "nil message", s)
                          | _ => (None, s)
                          end)
            (fun s => match s with
                      | 0 => ((false, None), 0)
                      | S n => ((true, None), n)
                      end)
            (fun s => s)
            (Some (fun s => (Some next, s)))
            (fun _ => BaseProcessValue (Some (fun s => s + 100))).

Definition sample (p : ref) : Process nat :=
  match p with
  | 4 => worker 5
  | 5 => broken
  | 6 => worker 1
  | _ => base_process
  end.

(** The world at program start. *)
Definition start : World nat :=
  mkWorld (fun _ => 2) ∅ [] false ∅ 0 [] None [] [] [].

(** Processes 1, 2 and 3 are running. *)
Definition three_running : World nat :=
  world_of (bind (RunProcess sample 1)
                 (fun _ => bind (RunProcess sample 2)
                                (fun _ => RunProcess sample 3)) start).

(** Process 4 alone is running. *)
Definition worker_running : World nat :=
  world_of (RunProcess sample 4 start).

(** Three [&tick{}] in a row: a worker that starts from 2 answers true,
    true and false. *)
Definition three_ticks : list message := [ptr_tick; ptr_tick; ptr_tick].

(** Process 4 was started and its goroutine has left the loop after the
    third tick. *)
Definition worker_stopped : World nat :=
  world_of (bind (RunProcess sample 4)
                 (fun _ => feed sample 0 three_ticks) start).

(** The whole run of process 4. *)
Definition worker_done : World nat :=
  world_of (run sample 4 three_ticks start).

(** The same for process 6, whose successor is process 1. *)
Definition chained_stopped : World nat :=
  world_of (bind (RunProcess sample 6)
                 (fun _ => feed sample 0 three_ticks) start).

(** A sender that read channel 3 from [_messengers] just before the
    goroutine of process 7 closed it. *)
Definition stale : World nat :=
  mkWorld (fun _ => 2) {[7 := 3]} [] false {[3]} 4 [] None [] [] [].

(** [quit{}] was sent to the three running processes. *)
Definition quit_sent : World nat :=
  world_of (NotifyAllProcesses sample val_quit three_running).

(** ** Properties of traces *)

Definition is_loop_event (e : event) : bool :=
  match e with
  | EReceive _ _ | ETick _ _ _ | EHandleMessage _ _ _ => true
  | _ => false
  end.

Definition is_cleanup (e : event) : bool :=
  match e with ECleanupProcess _ => true | _ => false end.

Definition is_on_complete (e : event) : bool :=
  match e with EOnComplete _ => true | _ => false end.

Definition is_next_process (e : event) : bool :=
  match e with ENextProcess _ _ => true | _ => false end.

Definition is_run_process (e : event) : bool :=
  match e with ERunProcess _ => true | _ => false end.

Definition is_set_processes (e : event) : bool :=
  match e with ESetProcesses _ => true | _ => false end.

(** [guards mutates held t]: along [t], started with the mutex held or
    not as [held] says, every event that [mutates] selects happens
    between a Lock and the next Unlock. *)
Fixpoint guards (mutates : event -> bool) (held : bool) (t : list event) : bool :=
  match t with
  | [] => true
  | ELock :: t' => guards mutates true t'
  | EUnlock :: t' => guards mutates false t'
  | e :: t' => (if mutates e then held else true) && guards mutates held t'
  end.

(** The writes to [_processes], and the writes to either registry global. *)
Definition mutates_processes (e : event) : bool :=
  match e with ESetProcesses _ => true | _ => false end.

Definition mutates_registry (e : event) : bool :=
  match e with
  | ESetProcesses _ | EStoreMessenger _ _ | EDeleteMessenger _ => true
  | _ => false
  end.

(** ** Statements about the registry *)

(** The two places that write the registry: [RunProcess] inserts, and the
    end of a goroutine removes. *)
Inductive registry_write : Type :=
| Insertion (p : ref)
| Removal (ch : chan).

Definition perform {St} (procs : ref -> Process St) (m : registry_write)
  : M St unit :=
  match m with
  | Insertion p => RunProcess procs p
  | Removal ch => finish procs ch
  end.

(** Every write that [mutates] selects happens with the mutex held. *)
Definition writes_locked {St} (procs : ref -> Process St)
    (mutates : event -> bool) : Prop :=
  forall m w w',
    _processMutex w = false ->
    perform procs m w = Ret tt w' ->
    exists t, trace w' = trace w ++ t /\ guards mutates false t = true.

(** A goroutine whose loop ended with [carryOn] set, and whose
    [NextProcess] returned [n], appends [n] to [_processes] and only then
    removes its own process. *)
Definition successor_first {St} (procs : ref -> Process St) : Prop :=
  forall ch w g n s w',
    leaver ch w = Some g ->
    g_carryOn g = true ->
    _processMutex w = false ->
    ch ∉ closed w ->
    In (g_proc g) (_processes w) ->
    queried procs (g_proc g) true w = Some (Some n, s) ->
    finish procs ch w = Ret tt w' ->
    exists t,
      trace w' = trace w ++ t
      /\ List.filter is_set_processes t
         = [ESetProcesses (_processes w ++ [n]);
            ESetProcesses (without (g_proc g) (_processes w ++ [n]))].

(** Processes that each name themselves as their successor. *)
Definition self_chained (p : ref) : Process nat := worker p.

(** ** The deferred state change, diagnostics and served processes *)

(** The goroutine that [NewState] starts: it waits for the registry to
    drain, at most [fuel] times round its loop, and then sets the state.
    [NewState] itself returns at once. *)
Definition NewState_goroutine {St} (procs : ref -> Process St) (fuel : nat)
    (state : ref) (views : list ref) : M St unit :=
  bind (wait_processes procs fuel) (fun _ => setState state views).

(** The lines that [RunProcess] and its goroutine write to standard
    error. *)
Definition init_error_line (e : error) : string :=
  "error during process initialization: " +:+ e +:+ nl.

Definition tick_error_line (e : error) : string :=
  "Process exited with error message '" +:+ e +:+ "'" +:+ nl.

Definition handle_error_line (e : error) : string :=
  "Process handled " +:+ e +:+ " with error message '%!s(MISSING)'" +:+ nl.

(** The line that goes with an event of the loop, if any. *)
Definition diagnostic (e : event) : list string :=
  match e with
  | ETick _ _ (Some err) => [tick_error_line err]
  | EHandleMessage _ _ (Some err) => [handle_error_line err]
  | _ => []
  end.

Definition is_receive (e : event) : bool :=
  match e with EReceive _ _ => true | _ => false end.

(** [p] has an open mailbox in [_messengers], and the goroutine that
    owns it runs [p] and waits in its loop. *)
Definition served {St} (w : World St) (p : ref) : Prop :=
  exists ch,
    _messengers w !! p = Some ch
    /\ (ch ∉ closed w)
    /\ goroutine_of ch w = Some (mkGoroutine p ch true true).

(** No two of the processes of [l] share a mailbox. *)
Definition own_mailboxes {St} (w : World St) (l : list ref) : Prop :=
  forall p q ch,
    In p l -> In q l ->
    _messengers w !! p = Some ch -> _messengers w !! q = Some ch -> p = q.

(** The methods that a process gets from an embedded [BaseProcess] when
    it overrides none of them. *)
Definition has_base_methods {St} (P : Process St) : Prop :=
  (forall s, InitProcess P s = (None, s))
  /\ (forall msg s, HandleMessage P msg s = (None, s))
  /\ (forall s, Tick P s = ((false, None), s)).

(** ** The event bus of package bus (bus/bus.go) *)

Module Bus.

(** A value handed to [AddListener]: a func, with the types of its
    parameters, or a value of another kind (nil included).  Funcs are
    not variadic, and calling one does not touch the bus.  Types that
    are not pointers are named types, told apart by their names. *)
Inductive callback : Type :=
| Func (id : nat) (params : list gotype)
| NotFunc (id : nat).

Record State : Type := mkState {
  _bus : gmap nat (list callback);          (* map[uint]*list.List *)
  calls : list (nat * list message);        (* every f.Call(values), in order *)
  stderr : list string
}.

Inductive outcome : Type :=
| Returns (s : State)
| Panics (s : State).

Definition state_of (o : outcome) : State :=
  match o with Returns s => s | Panics s => s end.

Definition set_bus (b : gmap nat (list callback)) (s : State) : State :=
  mkState b (calls s) (stderr s).

Definition add_call (id : nat) (values : list message) (s : State) : State :=
  mkState (_bus s) (calls s ++ [(id, values)]) (stderr s).

Definition eprint (line : string) (s : State) : State :=
  mkState (_bus s) (calls s) (stderr s ++ [line]).

(** [t1 == t2] on [reflect.Type]. *)
Fixpoint gotype_eqb (t1 t2 : gotype) : bool :=
  match t1, t2 with
  | Tquit, Tquit => true
  | Ttick, Ttick => true
  | Tnamed n1, Tnamed n2 => String.eqb n1 n2
  | Tptr e1, Tptr e2 => gotype_eqb e1 e2
  | _, _ => false
  end.

(** [Type.Name()]: the name of a named type, empty for a pointer type. *)
Definition type_name (t : gotype) : string :=
  match t with
  | Tquit => "quit"
  | Ttick => "tick"
  | Tnamed name => name
  | Tptr _ => ""
  end.

Definition arity_warning (eventType n have : nat) : string :=
  "invalid callback registerd for event type " +:+ pretty eventType
  +:+ ": need " +:+ pretty n +:+ " parameters, but have " +:+ pretty have +:+ nl.

Definition type_warning (eventType : nat) (need have : string) : string :=
  "invalid callback registered for event type " +:+ pretty eventType
  +:+ ": need " +:+ need +:+ " parameter, but have " +:+ have +:+ nl.

(** The inner loop of [Signal], over the parameter types of a listener
    and the values: [values[i].Type()] panics on the zero Value that
    [reflect.ValueOf(nil)] is. *)
Inductive verdict : Type :=
| Fits
| Differs (need have : string)
| ZeroValue.

Fixpoint compare_types (params : list gotype) (values : list message) : verdict :=
  match params, values with
  | t :: params', v :: values' =>
      match v with
      | NilMsg => ZeroValue
      | Msg tv _ =>
          if gotype_eqb t tv then compare_types params' values'
          else Differs (type_name tv) (type_name t)
      end
  | _, _ => Fits
  end.

(** The loop of [Signal] over the listeners of the event type. *)
Fixpoint call_listeners (eventType : nat) (values : list message)
    (listeners : list callback) (s : State) : outcome :=
  match listeners with
  | [] => Returns s
  | NotFunc _ :: _ => Panics s                  (* t.NumIn() of a non-func type *)
  | Func id params :: rest =>
      if negb (Nat.eqb (length params) (length values)) then
        call_listeners eventType values rest
          (eprint (arity_warning eventType (length values) (length params)) s)
      else
        match compare_types params values with
        | Fits => call_listeners eventType values rest (add_call id values s)
        | Differs need have =>
            call_listeners eventType values rest
              (eprint (type_warning eventType need have) s)
        | ZeroValue => Panics s
        end
  end.

Definition Signal (eventType : nat) (params : list message) (s : State) : outcome :=
  match _bus s !! eventType with
  | None => Returns s
  | Some listeners =>
      if Nat.eqb (length listeners) 0 then Returns s
      else call_listeners eventType params listeners s
  end.

Definition AddListener (eventType : nat) (f : callback) (s : State) : outcome :=
  match f with
  | NotFunc _ => Returns (eprint ("cannot register non-func callback!" +:+ nl) s)
  | Func _ _ =>
      let s1 := match _bus s !! eventType with
                | Some _ => s
                | None => set_bus (<[eventType := []]> (_bus s)) s
                end in
      Returns (set_bus (alter (fun l => l ++ [f]) eventType (_bus s1)) s1)
  end.

(** [&e.Value == &f]: the addresses of the field of a list element and
    of the parameter [f], two distinct variables. *)
Definition same_address (element f : callback) : bool := false.

(** The loop of [RemoveListener]: remove the first element that the
    comparison selects. *)
Fixpoint remove_selected (f : callback) (listeners : list callback)
  : list callback :=
  match listeners with
  | [] => []
  | e :: rest =>
      if same_address e f then rest else e :: remove_selected f rest
  end.

(** [_bus[eventType]] of a missing key is a nil [*list.List], and
    [Front()] of it dereferences nil. *)
Definition RemoveListener (eventType : nat) (f : callback) (s : State) : outcome :=
  match _bus s !! eventType with
  | None => Panics s
  | Some listeners =>
      Returns (set_bus (<[eventType := remove_selected f listeners]> (_bus s)) s)
  end.

(** [for eventType, listeners := range _bus { listeners.Init();
    delete(_bus, eventType) }]. *)
Definition Clear (s : State) : outcome :=
  Returns (set_bus (foldr (fun entry b => delete (fst entry) b) (_bus s)
                          (map_to_list (_bus s))) s).

Definition is_func (f : callback) : bool :=
  match f with Func _ _ => true | NotFunc _ => false end.

(** The dynamic type of each value, when none of them is nil. *)
Definition types_of (values : list message) : option (list gotype) :=
  mapM (fun v => match v with NilMsg => None | Msg t _ => Some t end) values.

(** Equality of two lists of types. *)
Fixpoint types_eqb (l1 l2 : list gotype) : bool :=
  match l1, l2 with
  | [], [] => true
  | t1 :: l1', t2 :: l2' => gotype_eqb t1 t2 && types_eqb l1' l2'
  | _, _ => false
  end.

(** The listeners of [l] whose parameter types are exactly [types]. *)
Definition fitting (types : list gotype) (l : list callback) : list nat :=
  flat_map (fun f => match f with
                     | Func id params =>
                         if types_eqb params types then [id] else []
                     | NotFunc _ => []
                     end) l.

End Bus.

(** A bus with three listeners for event type 1: two that take a string
    and one that takes nothing. *)
Definition sample_bus : Bus.State :=
  Bus.mkState {[1 := [Bus.Func 10 [Tnamed "string"]; Bus.Func 11 [];
                      Bus.Func 12 [Tnamed "string"]]]} [] [].

(** * Theorems *)

Section Theory.

Context {St : Type} (procs : ref -> Process St).

Implicit Types (w : World St) (p : ref) (ch : chan) (msg : message).

(** ** The type switch *)

Lemma type_switch_quit msg :
  type_switch msg = CaseQuit <-> exists n, msg = Msg (Tptr Tquit) n.
Proof.
  split.
  - destruct msg as [|[| | |[]] n]; simpl; try discriminate. eauto.
  - intros [n ->]. reflexivity.
Qed.

Lemma type_switch_tick msg :
  type_switch msg = CaseTick <-> exists n, msg = Msg (Tptr Ttick) n.
Proof.
  split.
  - destruct msg as [|[| | |[]] n]; simpl; try discriminate. eauto.
  - intros [n ->]. reflexivity.
Qed.

Lemma type_switch_default msg :
  (forall n, msg <> Msg (Tptr Tquit) n) ->
  (forall n, msg <> Msg (Tptr Ttick) n) ->
  type_switch msg = Default.
Proof.
  intros Hq Ht. destruct (type_switch msg) eqn:E; [| |reflexivity].
  - apply type_switch_quit in E as [n ->]. destruct (Hq n); reflexivity.
  - apply type_switch_tick in E as [n ->]. destruct (Ht n); reflexivity.
Qed.

(** C10: a message whose dynamic type is neither [*quit] nor [*tick] goes
    through the default arm of the type switch: the loop calls
    [HandleMessage] with it, and the flags change only when that call
    returns an error.  The non-pointer values [quit{}] and [tick{}] are
    such messages. *)
Theorem dispatch_forwards_other_types p msg alive carryOn w err s' :
  (forall n, msg <> Msg (Tptr Tquit) n) ->
  (forall n, msg <> Msg (Tptr Ttick) n) ->
  HandleMessage (procs p) msg (objs w p) = (err, s') ->
  exists w',
    dispatch procs p msg alive carryOn w
    = Ret (match err with Some _ => (false, false) | None => (alive, carryOn) end) w'
    /\ trace w' = trace w ++ [EHandleMessage p msg err]
    /\ objs w' = store p s' (objs w).
Proof.
  intros Hq Ht Hh. unfold dispatch.
  rewrite (type_switch_default msg Hq Ht).
  unfold bind, call. rewrite Hh. simpl.
  destruct err; simpl; eauto.
Qed.

(** ** Notifications *)

Lemma NotifyProcess_absent p msg w :
  _messengers w !! p = None -> NotifyProcess procs p msg w = Ret tt w.
Proof. intros H. unfold NotifyProcess, defer_recover. rewrite H. reflexivity. Qed.

(** C7: [NotifyProcess] returns normally and leaves the world as it is
    when [p] has no channel in [_messengers], and when the channel it has
    there is closed. *)
Theorem notify_without_open_mailbox p msg w :
  (_messengers w !! p = None
   \/ exists ch, _messengers w !! p = Some ch /\ ch ∈ closed w) ->
  NotifyProcess procs p msg w = Ret tt w.
Proof.
  intros [Hnone | (ch & Hch & Hclosed)].
  - apply NotifyProcess_absent, Hnone.
  - unfold NotifyProcess, defer_recover. rewrite Hch. unfold send.
    rewrite decide_True by assumption. reflexivity.
Qed.

(** ** Initialization *)

(** C5: when [InitProcess] returns an error, [RunProcess] returns normally
    after writing one line to standard error; the registry, the channels
    and the goroutines are as before, the only events are the call itself
    and the failed initialization, and a later notification of a process
    that had no mailbox delivers nothing. *)
Theorem init_error_aborts_run p w e s' :
  InitProcess (procs p) (objs w p) = (Some e, s') ->
  exists w',
    RunProcess procs p w = Ret tt w'
    /\ _processes w' = _processes w
    /\ _messengers w' = _messengers w
    /\ goroutines w' = goroutines w
    /\ closed w' = closed w
    /\ next_chan w' = next_chan w
    /\ trace w' = trace w ++ [ERunProcess p; EInitProcess p (Some e)]
    /\ stderr w' = stderr w ++ ["error during process initialization: " +:+ e +:+ nl]
    /\ (forall msg, _messengers w !! p = None ->
                    NotifyProcess procs p msg w' = Ret tt w').
Proof.
  intros Hinit. unfold RunProcess, bind, call, log. simpl. rewrite Hinit. simpl.
  eexists. split; [reflexivity|]. simpl. rewrite <- app_assoc. simpl.
  repeat split; try reflexivity.
  intros msg Hnone. apply NotifyProcess_absent. exact Hnone.
Qed.

(** ** Symbolic execution of the pieces *)

Ltac exec :=
  unfold bind, ret, log, eprint, call, Lock, Unlock, assign_processes,
    make_chan, store_messenger, delete_messenger, go, set_flags,
    exit_goroutine; simpl.

Lemma RunProcess_spec p w :
  _processMutex w = false ->
  let init := InitProcess (procs p) (objs w p) in
  exists w',
    RunProcess procs p w = Ret tt w'
    /\ trace w' = trace w ++ RunProcess_events p (fst init) w
    /\ _processes w'
       = _processes w ++ match fst init with None => [p] | Some _ => [] end
    /\ goroutines w'
       = goroutines w ++ match fst init with
                         | None => [mkGoroutine p (next_chan w) true true]
                         | Some _ => []
                         end
    /\ _messengers w'
       = match fst init with
         | None => <[p := next_chan w]> (_messengers w)
         | Some _ => _messengers w
         end
    /\ next_chan w'
       = match fst init with None => S (next_chan w) | Some _ => next_chan w end
    /\ objs w' = store p (snd init) (objs w)
    /\ _processMutex w' = false
    /\ closed w' = closed w.
Proof.
  intros Hfree init. subst init. unfold RunProcess. exec.
  destruct (InitProcess (procs p) (objs w p)) as [[e|] s]; exec.
  - eexists. split; [reflexivity|]. simpl.
    rewrite <- app_assoc, !app_nil_r. auto 10.
  - rewrite Hfree. exec. eexists. split; [reflexivity|]. simpl.
    repeat rewrite <- app_assoc. simpl. auto 10.
Qed.

(** *** The goroutine table *)

Lemma find_set_flags ch alive carryOn (gs : list goroutine) g :
  List.find (fun g' => Nat.eqb (g_chan g') ch) gs = Some g ->
  List.find (fun g' => Nat.eqb (g_chan g') ch)
            (map (fun g' => if Nat.eqb (g_chan g') ch
                            then mkGoroutine (g_proc g') ch alive carryOn
                            else g') gs)
  = Some (mkGoroutine (g_proc g) ch alive carryOn).
Proof.
  induction gs as [|g' gs IH]; simpl; [discriminate|].
  destruct (Nat.eqb (g_chan g') ch) eqn:E; simpl.
  - intros [= ->]. rewrite Nat.eqb_refl. reflexivity.
  - rewrite E. exact IH.
Qed.

Lemma goroutine_of_chan ch w g : goroutine_of ch w = Some g -> g_chan g = ch.
Proof.
  unfold goroutine_of. intros H. apply find_some in H as [_ H].
  apply Nat.eqb_eq in H. exact H.
Qed.

Lemma goroutine_of_app ch w g gs :
  goroutines w = gs ++ [g] ->
  List.find (fun g' => Nat.eqb (g_chan g') ch) gs = None ->
  g_chan g = ch ->
  goroutine_of ch w = Some g.
Proof.
  unfold goroutine_of. intros -> Hnone Hch.
  induction gs as [|g' gs IH]; simpl in *.
  - rewrite Hch, Nat.eqb_refl. reflexivity.
  - destruct (Nat.eqb (g_chan g') ch); [discriminate|]. apply IH, Hnone.
Qed.

(** *** One pass of the loop *)

Lemma flags_after_app t1 t2 :
  t2 <> [] -> flags_after (t1 ++ t2) = flags_after t2.
Proof.
  intros Hne. unfold flags_after.
  destruct t2 as [|e t2] using rev_ind; [congruence|].
  rewrite app_assoc, !last_snoc. reflexivity.
Qed.

Lemma receive_spec g msg w :
  g_alive g = true -> g_carryOn g = true ->
  goroutine_of (g_chan g) w = Some g ->
  exists w' evs,
    receive procs g msg w = Ret tt w'
    /\ trace w' = trace w ++ evs
    /\ evs <> []
    /\ Forall (fun e => loop_event_of (g_proc g) e = true) evs
    /\ goroutine_of (g_chan g) w'
       = Some (mkGoroutine (g_proc g) (g_chan g)
                           (fst (flags_after evs)) (snd (flags_after evs)))
    /\ _processMutex w' = _processMutex w
    /\ closed w' = closed w
    /\ _processes w' = _processes w
    /\ _messengers w' = _messengers w
    /\ next_chan w' = next_chan w.
Proof.
  intros Halive Hcarry Hg. destruct g as [p ch a c]. simpl in *. subst a c.
  assert (Hflags : forall a c,
             List.find (fun g' => Nat.eqb (g_chan g') ch)
               (map (fun g' => if Nat.eqb (g_chan g') ch
                               then mkGoroutine (g_proc g') ch a c else g')
                    (goroutines w))
             = Some (mkGoroutine p ch a c)).
  { intros a c.
    apply (find_set_flags ch a c _ (mkGoroutine p ch true true)). exact Hg. }
  unfold receive, dispatch. exec.
  destruct (type_switch msg) eqn:Hsw; exec.
  - eexists _, [EReceive p msg]. split; [reflexivity|]. simpl.
    unfold flags_after. simpl. rewrite Hsw. simpl.
    repeat split; try reflexivity; try discriminate.
    + repeat (constructor; [simpl; apply Nat.eqb_refl|]); constructor.
    + apply (Hflags false false).
  - destruct (Tick (procs p) (objs w p)) as [[more [e|]] s]; exec.
    + eexists _, [EReceive p msg; ETick p more (Some e)].
      split; [reflexivity|]. simpl. rewrite <- app_assoc. simpl.
        assert (Hf : flags_after [EReceive p msg; ETick p more (Some e)]
                   = (false, false)) by (destruct more; reflexivity).
      rewrite Hf. simpl.
      repeat split; try reflexivity; try discriminate.
      * repeat (constructor; [simpl; apply Nat.eqb_refl|]); constructor.
      * apply (Hflags false false).
    + eexists _, [EReceive p msg; ETick p more None].
      split; [reflexivity|]. simpl. rewrite <- app_assoc. simpl.
        assert (Hf : flags_after [EReceive p msg; ETick p more None]
                   = (more, true)) by (destruct more; reflexivity).
      rewrite Hf. simpl.
      repeat split; try reflexivity; try discriminate.
      * repeat (constructor; [simpl; apply Nat.eqb_refl|]); constructor.
      * apply (Hflags more true).
  - destruct (HandleMessage (procs p) msg (objs w p)) as [[e|] s]; exec.
    + eexists _, [EReceive p msg; EHandleMessage p msg (Some e)].
      split; [reflexivity|]. simpl. rewrite <- app_assoc. simpl.
        repeat split; try reflexivity; try discriminate.
      * repeat (constructor; [simpl; apply Nat.eqb_refl|]); constructor.
      * apply (Hflags false false).
    + eexists _, [EReceive p msg; EHandleMessage p msg None].
      split; [reflexivity|]. simpl. rewrite <- app_assoc. simpl.
        repeat split; try reflexivity; try discriminate.
      * repeat (constructor; [simpl; apply Nat.eqb_refl|]); constructor.
      * apply (Hflags true true).
Qed.

(** *** The loop *)

Lemma flags_after_alive t :
  fst (flags_after t) = true -> flags_after t = (true, true).
Proof.
  unfold flags_after. destruct (last t) as [e|]; [|reflexivity].
  destruct (stops e); simpl; [discriminate|reflexivity].
Qed.

Lemma feed_dead ch mailbox w :
  receiver ch w = None -> feed procs ch mailbox w = Ret tt w.
Proof. intros H. destruct mailbox; simpl; [reflexivity|]. rewrite H. reflexivity. Qed.

Lemma feed_spec mailbox : forall w p ch,
  goroutine_of ch w = Some (mkGoroutine p ch true true) ->
  exists w' evs,
    feed procs ch mailbox w = Ret tt w'
    /\ trace w' = trace w ++ evs
    /\ Forall (fun e => loop_event_of p e = true) evs
    /\ goroutine_of ch w'
       = Some (mkGoroutine p ch (fst (flags_after evs)) (snd (flags_after evs)))
    /\ _processMutex w' = _processMutex w
    /\ closed w' = closed w
    /\ _processes w' = _processes w
    /\ _messengers w' = _messengers w
    /\ next_chan w' = next_chan w.
Proof.
  induction mailbox as [|msg rest IH]; intros w p ch Hg.
  - exists w, []. simpl. rewrite app_nil_r. auto 10.
  - simpl. unfold receiver at 1. rewrite Hg. simpl.
    destruct (receive_spec (mkGoroutine p ch true true) msg w eq_refl eq_refl Hg)
      as (w1 & evs1 & Hrun & Htr & Hne & Hall & Hg1 & Hm & Hc & Hp & Hms & Hn).
    simpl in *. unfold bind. rewrite Hrun.
    destruct (fst (flags_after evs1)) eqn:Halive.
    + rewrite (flags_after_alive _ Halive) in Hg1. simpl in Hg1.
      destruct (IH w1 p ch Hg1)
        as (w2 & evs2 & Hrun2 & Htr2 & Hall2 & Hg2 & Hm2 & Hc2 & Hp2 & Hms2 & Hn2).
      exists w2, (evs1 ++ evs2). rewrite Hrun2.
      split; [reflexivity|]. split; [rewrite Htr2, Htr, app_assoc; reflexivity|].
      split; [apply Forall_app; auto|].
      split.
      { destruct evs2 as [|e evs2].
        - rewrite app_nil_r, (flags_after_alive _ Halive). exact Hg2.
        - rewrite flags_after_app by discriminate. exact Hg2. }
      repeat split; congruence.
    + rewrite feed_dead.
      * exists w1, evs1. rewrite Halive. auto 10.
      * unfold receiver. rewrite Hg1. reflexivity.
Qed.

(** *** After the loop *)

Lemma store_same (p : ref) (s : St) f : store p s f p = s.
Proof. unfold store. rewrite Nat.eqb_refl. reflexivity. Qed.

Lemma store_other (p q : ref) (s : St) f : q <> p -> store p s f q = f q.
Proof.
  intros Hne. unfold store. apply Nat.eqb_neq in Hne. rewrite Hne. reflexivity.
Qed.

Lemma completion_spec p w :
  exists w',
    completion procs p w = Ret tt w'
    /\ trace w' = trace w
                  ++ match BaseProcessField (procs p) (objs w p) with
                     | BaseProcessValue (Some _) => [EOnComplete p]
                     | _ => []
                     end
    /\ objs w' p = match BaseProcessField (procs p) (objs w p) with
                   | BaseProcessValue (Some OnComplete) => OnComplete (objs w p)
                   | _ => objs w p
                   end
    /\ (forall q, q <> p -> objs w' q = objs w q)
    /\ same_registry w w'.
Proof.
  unfold completion, same_registry.
  destruct (BaseProcessField (procs p) (objs w p)) as [| |[f|]]; exec;
    eexists; (split; [reflexivity|]); simpl; rewrite ?app_nil_r, ?store_same;
    repeat split; try reflexivity.
  intros q Hq. apply store_other, Hq.
Qed.

Lemma chain_spec p carryOn w :
  _processMutex w = false ->
  exists w',
    chain procs p carryOn w = Ret tt w'
    /\ trace w' = trace w
         ++ match NextProcess (procs p) with
            | Some next_process =>
                if carryOn then
                  ENextProcess p (fst (next_process (objs w p)))
                  :: match fst (next_process (objs w p)) with
                     | Some n =>
                         RunProcess_events n
                           (fst (InitProcess (procs n)
                                   (store p (snd (next_process (objs w p)))
                                          (objs w) n))) w
                     | None => []
                     end
                else []
            | None => []
            end
    /\ _processes w' = _processes w
         ++ match NextProcess (procs p) with
            | Some next_process =>
                if carryOn then
                  match fst (next_process (objs w p)) with
                  | Some n =>
                      match fst (InitProcess (procs n)
                                   (store p (snd (next_process (objs w p)))
                                          (objs w) n)) with
                      | None => [n]
                      | Some _ => []
                      end
                  | None => []
                  end
                else []
            | None => []
            end
    /\ _processMutex w' = false
    /\ closed w' = closed w.
Proof.
  intros Hfree. unfold chain.
  destruct (NextProcess (procs p)) as [next_process|];
    [destruct carryOn|]; try (exists w; rewrite !app_nil_r; auto).
  exec. destruct (next_process (objs w p)) as [[n|] s] eqn:Hnext; simpl.
  - match goal with
    | |- context [RunProcess procs n ?w0] =>
        destruct (RunProcess_spec n w0 Hfree)
          as (w' & Hrun & Htr & Hps & _ & _ & _ & _ & Hm & Hc)
    end.
    simpl in *. exists w'. rewrite Hrun.
    split; [reflexivity|]. rewrite Htr, Hps, <- app_assoc. auto.
  - eexists. split; [reflexivity|]. simpl. rewrite app_nil_r. auto.
Qed.

Lemma after_loop_spec p carryOn w :
  _processMutex w = false ->
  exists w',
    after_loop procs p carryOn w = Ret tt w'
    /\ trace w' = trace w ++ ECleanupProcess p :: completion_events procs p w
                  ++ chain_events procs p carryOn w
    /\ _processes w' = _processes w ++ registered_successor procs p carryOn w
    /\ _processMutex w' = false
    /\ closed w' = closed w.
Proof.
  intros Hfree. unfold after_loop. exec.
  match goal with
  | |- context [completion procs p ?w0] =>
      destruct (completion_spec p w0)
        as (w1 & Hrun1 & Htr1 & Hobj1 & Hoth1 & Hps1 & _ & Hm1 & Hc1 & Hn1 & _)
  end.
  simpl in *. rewrite Hrun1. rewrite store_same in Htr1, Hobj1.
  rewrite Hfree in Hm1.
  destruct (chain_spec p carryOn w1 Hm1) as (w2 & Hrun2 & Htr2 & Hps2 & Hm2 & Hc2).
  exists w2. rewrite Hrun2. split; [reflexivity|].
  assert (Hst : forall s n, store p s (objs w1) n = store p s (objs w) n).
  { intros s n. unfold store. destruct (Nat.eqb n p) eqn:E; [reflexivity|].
    apply Nat.eqb_neq in E. rewrite (Hoth1 n E). apply store_other, E. }
  assert (Hev : forall n err, RunProcess_events n err w1 = RunProcess_events n err w).
  { intros n err. unfold RunProcess_events. rewrite Hps1, Hn1. reflexivity. }
  assert (Hs2 : objs w1 p = after_completion procs p w).
  { rewrite Hobj1. unfold after_completion, found_callback, after_cleanup.
    destruct (BaseProcessField (procs p) (CleanupProcess (procs p) (objs w p)))
      as [| |[f|]]; reflexivity. }
  split; [|split; [|split; [exact Hm2|congruence]]].
  - rewrite Htr2, Htr1, <- !app_assoc. simpl. do 2 f_equal.
    unfold completion_events, found_callback, after_cleanup. f_equal.
    + destruct (BaseProcessField (procs p) (CleanupProcess (procs p) (objs w p)))
        as [| |[f|]]; reflexivity.
    + unfold chain_events, queried, successor_init.
      destruct (NextProcess (procs p)) as [next_process|]; [|reflexivity].
      destruct carryOn; [|reflexivity].
      rewrite Hs2. destruct (next_process (after_completion procs p w)) as [[n|] s];
        simpl; [|reflexivity].
      rewrite Hst, Hev. reflexivity.
  - rewrite Hps2, Hps1. f_equal.
    unfold registered_successor, queried, successor_init.
    destruct (NextProcess (procs p)) as [next_process|]; [|reflexivity].
    destruct carryOn; [|reflexivity].
    rewrite Hs2. destruct (next_process (after_completion procs p w)) as [[n|] s];
      simpl; [|reflexivity].
    rewrite Hst. reflexivity.
Qed.

Lemma deregister_spec p ch w :
  _processMutex w = false -> ch ∉ closed w ->
  exists w',
    deregister p ch w = Ret tt w'
    /\ trace w' = trace w ++ deregister_events p ch (_processes w)
    /\ _processes w' = without p (_processes w)
    /\ _messengers w' = delete p (_messengers w)
    /\ closed w' = {[ch]} ∪ closed w
    /\ _processMutex w' = false
    /\ goroutines w' = goroutines w
    /\ next_chan w' = next_chan w.
Proof.
  intros Hfree Hopen. unfold deregister, deregister_events, without, close. exec.
  rewrite Hfree. exec.
  destruct (index_of p (_processes w)) as [i|]; exec;
    rewrite decide_False by assumption; exec;
    (eexists; split; [reflexivity|]); simpl;
    repeat rewrite <- app_assoc; simpl; auto 10.
Qed.

Lemma finish_spec ch w g :
  leaver ch w = Some g ->
  _processMutex w = false -> ch ∉ closed w ->
  exists w',
    finish procs ch w = Ret tt w'
    /\ trace w' = trace w ++ finish_events procs (g_proc g) ch (g_carryOn g) w
    /\ _processes w'
       = without (g_proc g)
           (_processes w ++ registered_successor procs (g_proc g) (g_carryOn g) w)
    /\ closed w' = {[ch]} ∪ closed w
    /\ _processMutex w' = false.
Proof.
  intros Hg Hfree Hopen. unfold finish. rewrite Hg. unfold bind, defer.
  destruct (after_loop_spec (g_proc g) (g_carryOn g) w Hfree)
    as (w1 & Hrun1 & Htr1 & Hps1 & Hm1 & Hc1).
  rewrite Hrun1.
  assert (Hopen1 : ch ∉ closed w1) by (rewrite Hc1; exact Hopen).
  destruct (deregister_spec (g_proc g) ch w1 Hm1 Hopen1)
    as (w2 & Hrun2 & Htr2 & Hps2 & _ & Hc2 & Hm2 & _).
  rewrite Hrun2. exec. eexists. split; [reflexivity|]. simpl.
  unfold finish_events. rewrite Htr2, Htr1, Hps2, Hps1, Hc2, Hc1, <- app_assoc.
  simpl. rewrite <- app_assoc. auto.
Qed.

(** *** A whole run *)

Lemma run_spec p mailbox w :
  ready w ->
  fst (InitProcess (procs p) (objs w p)) = None ->
  let ch := next_chan w in
  exists w1 loop_ev,
    bind (RunProcess procs p) (fun _ => feed procs ch mailbox) w = Ret tt w1
    /\ trace w1 = trace w ++ RunProcess_events p None w ++ loop_ev
    /\ Forall (fun e => loop_event_of p e = true) loop_ev
    /\ _processes w1 = _processes w ++ [p]
    /\ _processMutex w1 = false
    /\ (ch ∉ closed w1)
    /\ (if fst (flags_after loop_ev)
        then receiver ch w1 = Some (mkGoroutine p ch true true)
             /\ run procs p mailbox w = Hang w1
        else leaver ch w1 = Some (mkGoroutine p ch false (snd (flags_after loop_ev)))
             /\ exists w',
                  run procs p mailbox w = Ret tt w'
                  /\ finish procs ch w1 = Ret tt w'
                  /\ trace w' = trace w1
                       ++ finish_events procs p ch (snd (flags_after loop_ev)) w1).
Proof.
  intros [Hfree Hfresh] Hinit ch.
  destruct (RunProcess_spec p w Hfree)
    as (w0 & Hrun0 & Htr0 & Hps0 & Hgs0 & _ & _ & _ & Hm0 & Hc0).
  simpl in *. rewrite Hinit in *.
  destruct (Hfresh ch (Nat.le_refl _)) as [Hnone Hopen].
  assert (Hg0 : goroutine_of ch w0 = Some (mkGoroutine p ch true true)).
  { apply (goroutine_of_app ch w0 _ (goroutines w)); auto. }
  destruct (feed_spec mailbox w0 p ch Hg0)
    as (w1 & evs & Hrun1 & Htr1 & Hall & Hg1 & Hm1 & Hc1 & Hps1 & _ & _).
  exists w1, evs. unfold run, bind. fold ch. rewrite Hrun0, Hrun1.
  assert (Hopen1 : ch ∉ closed w1) by (rewrite Hc1, Hc0; exact Hopen).
  assert (Hfree1 : _processMutex w1 = false) by congruence.
  split; [reflexivity|].
  split; [rewrite Htr1, Htr0, <- app_assoc; reflexivity|].
  split; [exact Hall|]. split; [congruence|]. split; [exact Hfree1|].
  split; [exact Hopen1|].
  destruct (fst (flags_after evs)) eqn:Halive.
  - rewrite (flags_after_alive _ Halive) in Hg1. simpl in Hg1.
    split; [unfold receiver; rewrite Hg1; reflexivity|].
    unfold finish, leaver. rewrite Hg1. reflexivity.
  - assert (Hl : leaver ch w1
                 = Some (mkGoroutine p ch false (snd (flags_after evs))))
      by (unfold leaver; rewrite Hg1; reflexivity).
    split; [exact Hl|].
    destruct (finish_spec ch w1 _ Hl Hfree1 Hopen1) as (w' & Hrun2 & Htr2 & _).
    exists w'. auto.
Qed.

(** A run that came to its end: the loop stopped on the last of its
    events, and the goroutine then wrote [finish_events]. *)
Lemma run_ended p mailbox w w' :
  ready w ->
  fst (InitProcess (procs p) (objs w p)) = None ->
  run procs p mailbox w = Ret tt w' ->
  exists w1 loop_ev carryOn,
    bind (RunProcess procs p) (fun _ => feed procs (next_chan w) mailbox) w
    = Ret tt w1
    /\ trace w1 = trace w ++ RunProcess_events p None w ++ loop_ev
    /\ Forall (fun e => loop_event_of p e = true) loop_ev
    /\ flags_after loop_ev = (false, carryOn)
    /\ _processes w1 = _processes w ++ [p]
    /\ trace w' = trace w1 ++ finish_events procs p (next_chan w) carryOn w1.
Proof.
  intros Hready Hinit Hrun.
  destruct (run_spec p mailbox w Hready Hinit)
    as (w1 & evs & Hfeed & Htr & Hall & Hps & _ & _ & Hend).
  destruct (flags_after evs) as [alive carryOn] eqn:Hflags. simpl in Hend.
  destruct alive.
  - destruct Hend as [_ Hhang]. congruence.
  - destruct Hend as [_ (w2 & Hrun2 & _ & Htr2)].
    assert (w2 = w') by congruence. subst w2.
    exists w1, evs, carryOn. auto 10.
Qed.

(** A Quit message in the mailbox ends the run. *)
Lemma receive_quit g msg w :
  type_switch msg = CaseQuit ->
  receive procs g msg w
  = set_flags (g_chan g) false false
      (set_trace (trace w ++ [EReceive (g_proc g) msg]) w).
Proof. intros H. unfold receive, dispatch. rewrite H. reflexivity. Qed.

Lemma feed_quit mailbox : forall w p ch,
  goroutine_of ch w = Some (mkGoroutine p ch true true) ->
  In ptr_quit mailbox ->
  exists w' carryOn,
    feed procs ch mailbox w = Ret tt w'
    /\ goroutine_of ch w' = Some (mkGoroutine p ch false carryOn).
Proof.
  induction mailbox as [|msg rest IH]; intros w p ch Hg Hin; [destruct Hin|].
  simpl. unfold receiver at 1. rewrite Hg. simpl. unfold bind.
  destruct (receive_spec (mkGoroutine p ch true true) msg w eq_refl eq_refl Hg)
    as (w1 & evs1 & Hrun & Htr & Hne & _ & Hg1 & _).
  simpl in Hg1. rewrite Hrun.
  destruct (fst (flags_after evs1)) eqn:Halive.
  - destruct Hin as [-> | Hin].
    + rewrite receive_quit in Hrun by reflexivity. simpl in Hrun.
      injection Hrun as <-. simpl in Htr.
      apply app_inv_head in Htr. subst evs1. discriminate Halive.
    + rewrite (flags_after_alive _ Halive) in Hg1. apply IH; assumption.
  - rewrite feed_dead by (unfold receiver; rewrite Hg1; reflexivity).
    eauto.
Qed.

(** ** Shapes of traces *)

Lemma count_app select t1 t2 :
  count select (t1 ++ t2) = count select t1 + count select t2.
Proof. unfold count. rewrite List.filter_app, length_app. reflexivity. Qed.

Lemma count_none select t :
  Forall (fun e => select e = false) t -> count select t = 0.
Proof.
  unfold count. induction 1 as [|e t He _ IH]; simpl; [reflexivity|].
  rewrite He. exact IH.
Qed.

Lemma loop_event_of_is_loop p e :
  loop_event_of p e = true ->
  is_loop_event e = true /\ is_cleanup e = false /\ is_run_process e = false
  /\ is_next_process e = false /\ is_on_complete e = false.
Proof. destruct e; simpl; intros; try discriminate; auto. Qed.

Lemma flags_after_stopped t carryOn :
  flags_after t = (false, carryOn) ->
  exists e, last t = Some e /\ stops e = Some carryOn.
Proof.
  unfold flags_after. destruct (last t) as [e|]; [|discriminate].
  destruct (stops e) as [c|] eqn:E; [|discriminate].
  intros [= <-]. eauto.
Qed.

Lemma stops_carry_on p e :
  loop_event_of p e = true -> stops e = Some true -> e = ETick p false None.
Proof.
  destruct e as [| | q msg | q [] [] | q msg [] | | | | | | | | | | | | | | | |];
    simpl; try discriminate.
  - destruct (type_switch msg); discriminate.
  - intros Hq _. apply Nat.eqb_eq in Hq. subst q. reflexivity.
Qed.

Ltac shapes :=
  unfold finish_events, completion_events, chain_events, deregister_events,
    RunProcess_events, registered_successor;
  repeat case_match; simpl.

(** What follows [CleanupProcess] has no further cleanup and no event of
    the loop. *)
Lemma finish_events_shape p ch carryOn w :
  exists after_ev,
    finish_events procs p ch carryOn w = ECleanupProcess p :: after_ev
    /\ Forall (fun e => is_cleanup e = false /\ is_loop_event e = false) after_ev.
Proof.
  eexists. split; [reflexivity|].
  shapes; repeat (constructor; [split; reflexivity|]); constructor.
Qed.

(** [RunProcess(n)] follows the loop exactly when [NextProcess] was asked
    and returned [n]. *)
Lemma finish_events_run p ch carryOn w n :
  In (ERunProcess n) (finish_events procs p ch carryOn w)
  <-> exists s, queried procs p carryOn w = Some (Some n, s).
Proof.
  split.
  - intros Hin. unfold finish_events in Hin.
    destruct Hin as [Hin|Hin]; [discriminate|].
    rewrite !in_app_iff in Hin. destruct Hin as [Hin|[Hin|Hin]].
    + unfold completion_events in Hin.
      destruct (found_callback procs p w); simpl in Hin; intuition discriminate.
    + unfold chain_events in Hin.
      destruct (queried procs p carryOn w) as [[[m|] s]|]; simpl in Hin.
      * destruct Hin as [Hin|Hin]; [discriminate|].
        unfold RunProcess_events in Hin.
        destruct (successor_init procs p s m w); simpl in Hin;
          (destruct Hin as [Hin|Hin]; [injection Hin as ->; eauto|]);
          intuition discriminate.
      * intuition discriminate.
      * destruct Hin.
    + unfold deregister_events in Hin.
      destruct (index_of p _); simpl in Hin; intuition discriminate.
  - intros [s Hq]. unfold finish_events, chain_events. rewrite Hq.
    right. apply in_or_app. right. apply in_or_app. left. right.
    unfold RunProcess_events. case_match; left; reflexivity.
Qed.

Lemma queried_iff p carryOn w n s :
  queried procs p carryOn w = Some (Some n, s)
  <-> carryOn = true
      /\ exists next_process,
           NextProcess (procs p) = Some next_process
           /\ next_process (after_completion procs p w) = (Some n, s).
Proof.
  unfold queried. destruct (NextProcess (procs p)) as [f|].
  - destruct carryOn.
    + split.
      * intros [= H]. eauto.
      * intros (_ & f' & [= <-] & H). rewrite H. reflexivity.
    + split; [discriminate|]. intros [H _]. discriminate.
  - split; [discriminate|]. intros (_ & f' & H & _). discriminate.
Qed.

(** ** Whole runs *)



(** ** The end of a goroutine *)



(** ** The registry *)

Lemma index_of_In p (l : list nat) :
  In p l -> exists i, index_of p l = Some i /\ i < length l.
Proof.
  induction l as [|q l IH]; simpl; [intros []|].
  intros Hin. destruct (Nat.eqb q p) eqn:E.
  - exists 0. split; [reflexivity|lia].
  - destruct Hin as [->|Hin]; [rewrite Nat.eqb_refl in E; discriminate|].
    destruct (IH Hin) as (i & -> & Hi). exists (S i). split; [reflexivity|lia].
Qed.

Lemma index_of_app p (l l' : list nat) i :
  index_of p l = Some i -> index_of p (l ++ l') = Some i.
Proof.
  revert i. induction l as [|q l IH]; simpl; [discriminate|].
  intros i. destruct (Nat.eqb q p); [auto|].
  destruct (index_of p l) as [j|]; [|discriminate].
  rewrite (IH j eq_refl). auto.
Qed.

Lemma without_app p (l : list nat) n :
  In p l ->
  exists i, i < length l
            /\ index_of p (l ++ [n]) = Some i
            /\ without p (l ++ [n]) = take i l ++ drop (S i) l ++ [n].
Proof.
  intros Hin. destruct (index_of_In p l Hin) as (i & Hi & Hlt).
  exists i. split; [exact Hlt|].
  pose proof (index_of_app p l [n] i Hi) as Happ.
  split; [exact Happ|].
  unfold without. rewrite Happ.
  rewrite take_app_le, drop_app_le by lia. reflexivity.
Qed.


Lemma finish_returns ch w w' :
  _processMutex w = false ->
  finish procs ch w = Ret tt w' ->
  exists g, leaver ch w = Some g /\ ch ∉ closed w.
Proof.
  intros Hfree Hrun. unfold finish in Hrun.
  destruct (leaver ch w) as [g|]; [|discriminate].
  exists g. split; [reflexivity|]. intros Hclosed.
  unfold bind, defer in Hrun.
  destruct (after_loop_spec (g_proc g) (g_carryOn g) w Hfree)
    as (w1 & Hrun1 & _ & _ & Hm1 & Hc1).
  rewrite Hrun1 in Hrun. unfold deregister, close in Hrun.
  revert Hrun. exec. rewrite Hm1. exec.
  destruct (index_of (g_proc g) (_processes w1)); exec;
    rewrite Hc1, decide_True by assumption; discriminate.
Qed.








(** ** Runs that end, and worlds that are ready *)

(** A run whose mailbox has a [&quit{}] comes to its end. *)
Lemma run_ends_on_quit p mailbox w :
  ready w ->
  fst (InitProcess (procs p) (objs w p)) = None ->
  In ptr_quit mailbox ->
  exists w', run procs p mailbox w = Ret tt w'.
Proof.
  intros Hready Hinit Hin.
  destruct (run_spec p mailbox w Hready Hinit)
    as (w1 & evs & Hfeed & _ & _ & _ & _ & _ & Hend).
  destruct (fst (flags_after evs)).
  - exfalso. destruct Hend as [Hrecv _].
    destruct Hready as [Hfree Hfresh].
    destruct (RunProcess_spec p w Hfree)
      as (w0 & Hrun0 & _ & _ & Hgs0 & _).
    simpl in Hgs0. rewrite Hinit in Hgs0.
    destruct (Hfresh (next_chan w) (Nat.le_refl _)) as [Hnone _].
    assert (Hg0 : goroutine_of (next_chan w) w0
                  = Some (mkGoroutine p (next_chan w) true true))
      by (apply (goroutine_of_app _ w0 _ (goroutines w)); auto).
    destruct (feed_quit mailbox w0 p (next_chan w) Hg0 Hin)
      as (w2 & c & Hfeed2 & Hg2).
    unfold bind in Hfeed. rewrite Hrun0, Hfeed2 in Hfeed.
    injection Hfeed as <-.
    unfold receiver in Hrecv. rewrite Hg2 in Hrecv. discriminate Hrecv.
  - destruct Hend as [_ (w' & Hrun & _)]. eauto.
Qed.

Lemma find_none_app (gs gs' : list goroutine) ch :
  List.find (fun g => Nat.eqb (g_chan g) ch) gs = None ->
  List.find (fun g => Nat.eqb (g_chan g) ch) gs' = None ->
  List.find (fun g => Nat.eqb (g_chan g) ch) (gs ++ gs') = None.
Proof.
  intros H1 H2. induction gs as [|g gs IH]; simpl in *; [exact H2|].
  destruct (Nat.eqb (g_chan g) ch); [discriminate|]. apply IH, H1.
Qed.

(** [RunProcess] leaves a ready world ready. *)
Lemma ready_RunProcess p w :
  ready w -> ready (world_of (RunProcess procs p w)).
Proof.
  intros [Hfree Hfresh].
  destruct (RunProcess_spec p w Hfree)
    as (w' & Hrun & _ & _ & Hgs & _ & Hn & _ & Hm & Hc).
  simpl in *. rewrite Hrun. simpl. split; [exact Hm|].
  intros ch Hch. rewrite Hc. unfold goroutine_of. rewrite Hgs.
  destruct (fst (InitProcess (procs p) (objs w p))).
  - rewrite app_nil_r. rewrite Hn in Hch. apply (Hfresh ch Hch).
  - rewrite Hn in Hch. destruct (Hfresh ch) as [Hnone Hopen]; [lia|].
    split; [|exact Hopen].
    apply find_none_app; [exact Hnone|]. simpl.
    destruct (Nat.eqb (next_chan w) ch) eqn:E; [|reflexivity].
    apply Nat.eqb_eq in E. lia.
Qed.

(** * Further properties *)

(** ** The loop stops for good *)

Lemma receive_frame g msg w :
  exists w' rest alive carryOn,
    receive procs g msg w = Ret tt w'
    /\ trace w' = trace w ++ EReceive (g_proc g) msg :: rest
    /\ Forall (fun e => is_receive e = false) rest
    /\ Forall (fun e => loop_event_of (g_proc g) e = true) rest
    /\ stderr w' = stderr w ++ flat_map diagnostic rest
    /\ goroutines w'
       = map (fun g' => if Nat.eqb (g_chan g') (g_chan g)
                        then mkGoroutine (g_proc g') (g_chan g) alive carryOn
                        else g') (goroutines w)
    /\ _processes w' = _processes w
    /\ _messengers w' = _messengers w
    /\ _processMutex w' = _processMutex w
    /\ closed w' = closed w
    /\ next_chan w' = next_chan w
    /\ _state w' = _state w
    /\ _views w' = _views w.
Proof.
  assert (Hall : forall e,
             is_receive e = false -> loop_event_of (g_proc g) e = true ->
             Forall (fun e => is_receive e = false) [e]
             /\ Forall (fun e => loop_event_of (g_proc g) e = true) [e]).
  { intros e H1 H2. split; constructor; auto. }
  unfold receive, dispatch. exec.
  destruct (type_switch msg); exec.
  - eexists _, [], _, _. split; [reflexivity|]. simpl.
    rewrite app_nil_r. repeat split; auto.
  - destruct (Tick (procs (g_proc g)) (objs w (g_proc g))) as [[more [e|]] s];
      exec.
    + destruct (Hall (ETick (g_proc g) more (Some e)) eq_refl (Nat.eqb_refl _)).
      eexists _, [ETick (g_proc g) more (Some e)], _, _.
      split; [reflexivity|]. simpl. rewrite <- app_assoc.
      repeat split; auto.
    + destruct (Hall (ETick (g_proc g) more None) eq_refl (Nat.eqb_refl _)).
      eexists _, [ETick (g_proc g) more None], _, _.
      split; [reflexivity|]. simpl. rewrite <- app_assoc, app_nil_r.
      repeat split; auto.
  - destruct (HandleMessage (procs (g_proc g)) msg (objs w (g_proc g)))
      as [[e|] s]; exec.
    + destruct (Hall (EHandleMessage (g_proc g) msg (Some e)) eq_refl
                  (Nat.eqb_refl _)).
      eexists _, [EHandleMessage (g_proc g) msg (Some e)], _, _.
      split; [reflexivity|]. simpl. rewrite <- app_assoc.
      repeat split; auto.
    + destruct (Hall (EHandleMessage (g_proc g) msg None) eq_refl
                  (Nat.eqb_refl _)).
      eexists _, [EHandleMessage (g_proc g) msg None], _, _.
      split; [reflexivity|]. simpl. rewrite <- app_assoc, app_nil_r.
      repeat split; auto.
Qed.

(** X1: once a message has ended the loop, the messages behind it in
    the mailbox are never received. *)
Theorem feed_ignores_rest ch mailbox rest w w' :
  feed procs ch mailbox w = Ret tt w' ->
  receiver ch w' = None ->
  feed procs ch (mailbox ++ rest) w = Ret tt w'.
Proof.
  revert w. induction mailbox as [|msg mailbox IH]; intros w Hfeed Hdead.
  - simpl in Hfeed. injection Hfeed as <-. simpl. apply feed_dead, Hdead.
  - simpl in *. destruct (receiver ch w) as [g|].
    + unfold bind in *.
      destruct (receive_frame g msg w) as (w1 & ? & ? & ? & Hrun & _).
      rewrite Hrun in *. apply IH; assumption.
    + injection Hfeed as <-. reflexivity.
Qed.

(** ** Removal from the registry *)

Lemma index_of_None p (l : list nat) : index_of p l = None -> ~ In p l.
Proof.
  induction l as [|q l IH]; simpl; [tauto|].
  destruct (Nat.eqb q p) eqn:E; [discriminate|].
  destruct (index_of p l); [discriminate|].
  intros _ [->|Hin]; [rewrite Nat.eqb_refl in E; discriminate|].
  apply IH; auto.
Qed.

Lemma index_of_Some p (l : list nat) i :
  index_of p l = Some i ->
  l = take i l ++ p :: drop (S i) l /\ ~ In p (take i l).
Proof.
  revert i. induction l as [|q l IH]; simpl; [discriminate|].
  intros i. destruct (Nat.eqb q p) eqn:E.
  - intros [= <-]. apply Nat.eqb_eq in E. subst q. simpl. tauto.
  - destruct (index_of p l) as [j|]; [|discriminate].
    intros [= <-]. destruct (IH j eq_refl) as [Hl Hnot]. simpl.
    split; [f_equal; exact Hl|].
    intros [->|Hin]; [rewrite Nat.eqb_refl in E; discriminate|auto].
Qed.

(** X2: the deferred function of a goroutine takes the first [p] out of
    [_processes] and keeps the others in their order, or leaves
    [_processes] as it is when [p] is not in it; it deletes the mailbox of
    [p], closes the channel and leaves the mutex free. *)
Theorem deregister_removes_first p ch w :
  _processMutex w = false ->
  ch ∉ closed w ->
  exists w',
    deregister p ch w = Ret tt w'
    /\ ((~ In p (_processes w) /\ _processes w' = _processes w)
        \/ exists before behind,
             _processes w = before ++ p :: behind
             /\ ~ In p before
             /\ _processes w' = before ++ behind)
    /\ _messengers w' !! p = None
    /\ ch ∈ closed w'
    /\ _processMutex w' = false.
Proof.
  intros Hfree Hopen.
  destruct (deregister_spec p ch w Hfree Hopen)
    as (w' & Hrun & _ & Hps & Hms & Hc & Hm & _).
  exists w'. split; [exact Hrun|].
  split.
  { unfold without in Hps.
    destruct (index_of p (_processes w)) as [i|] eqn:Hi.
    - right. destruct (index_of_Some p _ i Hi) as [Hl Hnot].
      exists (take i (_processes w)), (drop (S i) (_processes w)). auto.
    - left. split; [apply index_of_None, Hi|exact Hps]. }
  split; [rewrite Hms; apply lookup_delete_eq|].
  split; [|exact Hm].
  rewrite Hc. apply elem_of_union_l, elem_of_singleton. reflexivity.
Qed.

(** ** Game states *)

Lemma for_each_log {A} (l : list A) (ev : A -> list event) w :
  for_each l (fun x => fun w0 => Ret tt (set_trace (trace w0 ++ ev x) w0)) w
  = Ret tt (set_trace (trace w ++ flat_map ev l) w).
Proof.
  revert w. induction l as [|x l IH]; intros w; simpl.
  - unfold ret. rewrite app_nil_r. destruct w; reflexivity.
  - unfold bind. rewrite IH. simpl. rewrite <- app_assoc. reflexivity.
Qed.

Lemma flat_map_single {A B} (f : A -> B) (l : list A) :
  flat_map (fun x => [f x]) l = map f l.
Proof. induction l as [|x l IH]; simpl; [reflexivity|]. rewrite IH. reflexivity. Qed.

Lemma for_each_views state (views : list nat) : forall w : World St,
  exists w',
    for_each views
      (fun v => bind (log (EAssignStateField state v))
                  (fun _ => bind (log (EInitView v))
                              (fun _ w0 => Ret tt (set_views (_views w0 ++ [v]) w0))))
      w = Ret tt w'
    /\ trace w' = trace w
         ++ flat_map (fun v => [EAssignStateField state v; EInitView v]) views
    /\ _views w' = _views w ++ views
    /\ _state w' = _state w
    /\ same_registry w w'.
Proof.
  unfold same_registry.
  set (body := fun v : nat =>
         bind (log (EAssignStateField state v))
           (fun _ => bind (log (EInitView v))
              (fun _ (w0 : World St) =>
                 Ret tt (set_views (_views w0 ++ [v]) w0)))).
  induction views as [|v views IH]; intros w; simpl.
  - exists w. rewrite !app_nil_r. auto 10.
  - unfold bind at 1.
    set (w0 := set_views (_views w ++ [v])
                 (set_trace (trace w ++ [EAssignStateField state v; EInitView v]) w)).
    assert (Hbody : body v w = Ret tt w0).
    { unfold body, w0. exec. rewrite <- app_assoc. reflexivity. }
    rewrite Hbody.
    destruct (IH w0) as (w' & Hrun & Htr & Hv & Hs & Hreg).
    simpl in *. exists w'. rewrite Hrun, Htr, Hv, <- !app_assoc. simpl.
    auto 10.
Qed.

Lemma setState_spec state views (w : World St) :
  exists w',
    setState state views w = Ret tt w'
    /\ _state w' = Some state
    /\ _views w' = views
    /\ trace w' = trace w
         ++ match _state w with Some old => [ECleanupState old] | None => [] end
         ++ map ECleanupView (_views w)
         ++ EInitState state
            :: flat_map (fun v => [EAssignStateField state v; EInitView v]) views
    /\ same_registry w w'.
Proof.
  unfold setState, bind at 1.
  set (w1 := world_of (match _state w with
                       | Some old => log (ECleanupState old) w
                       | None => Ret tt w
                       end)).
  assert (H1 : match _state w with
               | Some old => log (ECleanupState old) w
               | None => Ret tt w
               end = Ret tt w1) by (unfold w1; destruct (_state w); reflexivity).
  rewrite H1. unfold bind at 1.
  assert (H2 : for_each (_views w1) (fun v => log (ECleanupView v)) w1
               = Ret tt (set_trace (trace w1 ++ map ECleanupView (_views w1)) w1)).
  { rewrite <- (flat_map_single ECleanupView).
    apply (for_each_log (_views w1) (fun v => [ECleanupView v])). }
  rewrite H2. unfold bind at 1. simpl. unfold bind at 1. simpl.
  unfold bind at 1. simpl.
  match goal with
  | |- context [for_each views _ ?w0] =>
      destruct (for_each_views state views w0)
        as (w' & Hrun & Htr & Hv & Hs & Hreg)
  end.
  simpl in *. exists w'. split; [exact Hrun|]. split; [exact Hs|].
  split; [exact Hv|].
  split.
  - rewrite Htr. unfold w1. destruct (_state w); simpl;
      rewrite <- ?app_assoc; simpl; rewrite <- ?app_assoc; reflexivity.
  - unfold same_registry in *. unfold w1 in *.
    destruct (_state w); simpl in *; exact Hreg.
Qed.



Lemma wait_processes_drained fuel : forall w w',
  wait_processes procs fuel w = Ret tt w' -> _processes w' = [].
Proof.
  induction fuel as [|fuel IH]; intros w w'; simpl.
  - destruct (_processes w) eqn:E; simpl; [|discriminate].
    intros [= <-]. exact E.
  - destruct (_processes w) eqn:E; simpl.
    + intros [= <-]. exact E.
    + unfold bind. destruct (Gosched procs w) as [[] w0|w0|w0];
        [apply IH|discriminate|discriminate].
Qed.

Lemma wait_processes_empty fuel w :
  _processes w = [] -> wait_processes procs fuel w = Ret tt w.
Proof. intros H. destruct fuel; simpl; rewrite H; reflexivity. Qed.



(** X7: with no process registered, [NewStateNow] sends nothing and does
    not wait: it does what [setState] does, without a single round of the
    wait loop. *)
Theorem NewStateNow_empty_registry fuel state views w :
  _processes w = [] ->
  NewStateNow procs fuel state views w = setState state views w.
Proof.
  intros Hempty. unfold NewStateNow, bind, NotifyAllProcesses.
  rewrite Hempty. simpl. rewrite (wait_processes_empty fuel w Hempty).
  reflexivity.
Qed.

(** ** Notifications reach the processes *)


Lemma find_set_flags_other ch ch' alive carryOn (gs : list goroutine) :
  ch' <> ch ->
  List.find (fun g => Nat.eqb (g_chan g) ch')
            (map (fun g => if Nat.eqb (g_chan g) ch
                           then mkGoroutine (g_proc g) ch alive carryOn
                           else g) gs)
  = List.find (fun g => Nat.eqb (g_chan g) ch') gs.
Proof.
  intros Hne. induction gs as [|g gs IH]; simpl; [reflexivity|].
  destruct (Nat.eqb (g_chan g) ch) eqn:E; simpl.
  - apply Nat.eqb_eq in E. rewrite E.
    assert (Hn : Nat.eqb ch ch' = false) by (apply Nat.eqb_neq; auto).
    rewrite Hn. exact IH.
  - destruct (Nat.eqb (g_chan g) ch'); [reflexivity|exact IH].
Qed.

(** Sending to the served processes of [l] that [filter] selects. *)
Lemma for_each_notify msg (filter : nat -> bool) (l : list nat) : forall w,
  NoDup l ->
  (forall p, In p l -> filter p = true -> served w p) ->
  own_mailboxes w l ->
  exists w' t,
    for_each l (fun process => if filter process
                               then NotifyProcess procs process msg
                               else ret tt) w = Ret tt w'
    /\ trace w' = trace w ++ t
    /\ List.filter is_receive t
       = map (fun p => EReceive p msg) (List.filter filter l)
    /\ _processes w' = _processes w
    /\ _messengers w' = _messengers w
    /\ closed w' = closed w.
Proof.
  induction l as [|p l IH]; intros w Hnodup Hserved Hown.
  - exists w, []. simpl. rewrite app_nil_r. auto 10.
  - apply NoDup_cons in Hnodup as [Hnotin Hnodup].
    assert (Hown_l : forall w1, _messengers w1 = _messengers w ->
                                own_mailboxes w1 l).
    { intros w1 Hms q r ch Hq Hr. rewrite Hms.
      apply Hown; right; assumption. }
    simpl. unfold bind. destruct (filter p) eqn:Hf.
    + destruct (Hserved p (or_introl eq_refl) Hf) as (ch & Hch & Hopen & Hg).
      destruct (receive_frame (mkGoroutine p ch true true) msg w)
        as (w1 & rest & a & c & Hrun & Htr & Hrest & _ & _ & Hgs
            & Hps & Hms & _ & Hc & _).
      simpl in Htr, Hgs.
      assert (Hhead : NotifyProcess procs p msg w = Ret tt w1).
      { unfold NotifyProcess, defer_recover. rewrite Hch. unfold send.
        rewrite decide_False by assumption.
        unfold receiver. rewrite Hg. simpl. rewrite Hrun. reflexivity. }
      rewrite Hhead.
      destruct (IH w1 Hnodup) as (w' & t & Hrun' & Htr' & Hfil & Hps' & Hms' & Hc').
      * intros q Hq Hfq.
        destruct (Hserved q (or_intror Hq) Hfq) as (chq & Hchq & Hopenq & Hgq).
        exists chq. rewrite Hms, Hc. split; [exact Hchq|]. split; [exact Hopenq|].
        unfold goroutine_of. rewrite Hgs.
        rewrite find_set_flags_other; [exact Hgq|].
        intros ->. apply Hnotin.
        rewrite (Hown q p ch (or_intror Hq) (or_introl eq_refl) Hchq Hch) in Hq.
        apply list_elem_of_In. exact Hq.
      * apply Hown_l, Hms.
      * exists w', (EReceive p msg :: rest ++ t). rewrite Hrun'.
        split; [reflexivity|].
        split; [rewrite Htr', Htr, <- app_assoc; reflexivity|].
        split.
        { simpl. rewrite List.filter_app, Hfil. f_equal.
          replace (List.filter is_receive rest) with (@nil event); [reflexivity|].
          symmetry. clear -Hrest.
          induction Hrest as [|e r He _ IHr]; simpl; [reflexivity|].
          rewrite He. exact IHr. }
        repeat split; congruence.
    + destruct (IH w Hnodup) as (w' & t & Hrun' & Htr' & Hfil & Hrest').
      * intros q Hq Hfq. apply Hserved; [right; exact Hq|exact Hfq].
      * apply Hown_l. reflexivity.
      * exists w', t. change (@ret St unit tt w) with (@Ret St unit tt w).
        cbv beta iota. rewrite Hrun'. auto 10.
Qed.



(** ** Starting and stopping *)

(** X11: after a [RunProcess(p)] whose initialization succeeded, [p] is
    the last entry of [_processes] and is served on a fresh channel, and
    a message sent to it with [NotifyProcess] is the next thing its
    goroutine receives. *)
Theorem started_process_is_served p w :
  ready w ->
  fst (InitProcess (procs p) (objs w p)) = None ->
  exists w',
    RunProcess procs p w = Ret tt w'
    /\ _processes w' = _processes w ++ [p]
    /\ _messengers w' !! p = Some (next_chan w)
    /\ served w' p
    /\ forall msg,
         exists w'' rest,
           NotifyProcess procs p msg w' = Ret tt w''
           /\ trace w'' = trace w' ++ EReceive p msg :: rest
           /\ Forall (fun e => is_receive e = false) rest.
Proof.
  intros [Hfree Hfresh] Hinit.
  destruct (RunProcess_spec p w Hfree)
    as (w' & Hrun & _ & Hps & Hgs & Hms & _ & _ & _ & Hc).
  simpl in *. rewrite Hinit in *.
  destruct (Hfresh (next_chan w) (Nat.le_refl _)) as [Hnone Hopen].
  assert (Hch : _messengers w' !! p = Some (next_chan w))
    by (rewrite Hms; apply lookup_insert_eq).
  assert (Hopen' : next_chan w ∉ closed w') by (rewrite Hc; exact Hopen).
  assert (Hg : goroutine_of (next_chan w) w'
               = Some (mkGoroutine p (next_chan w) true true))
    by (apply (goroutine_of_app _ w' _ (goroutines w)); auto).
  exists w'. split; [exact Hrun|]. split; [exact Hps|]. split; [exact Hch|].
  split; [exists (next_chan w); auto|].
  intros msg.
  destruct (receive_frame (mkGoroutine p (next_chan w) true true) msg w')
    as (w'' & rest & a & c & Hrecv & Htr & Hrest & _).
  exists w'', rest. split; [|auto].
  unfold NotifyProcess, defer_recover. rewrite Hch. unfold send.
  rewrite decide_False by assumption. unfold receiver. rewrite Hg. simpl.
  rewrite Hrecv. reflexivity.
Qed.

Lemma index_of_last p (l : list nat) :
  ~ In p l -> index_of p (l ++ [p]) = Some (length l).
Proof.
  induction l as [|q l IH]; simpl; intros Hnot.
  - rewrite Nat.eqb_refl. reflexivity.
  - destruct (Nat.eqb q p) eqn:E.
    + apply Nat.eqb_eq in E. tauto.
    + rewrite IH by tauto. reflexivity.
Qed.

Lemma without_last p (l : list nat) : ~ In p l -> without p (l ++ [p]) = l.
Proof.
  intros Hnot. unfold without. rewrite (index_of_last p l Hnot).
  rewrite take_app_length.
  replace (S (length l)) with (length (l ++ [p]))
    by (rewrite length_app; simpl; lia).
  rewrite drop_all, app_nil_r. reflexivity.
Qed.

Lemma find_filter_out (gs : list goroutine) ch :
  List.find (fun g => Nat.eqb (g_chan g) ch)
            (List.filter (fun g => negb (Nat.eqb (g_chan g) ch)) gs) = None.
Proof.
  induction gs as [|g gs IH]; simpl; [reflexivity|].
  destruct (Nat.eqb (g_chan g) ch) eqn:E; simpl; [exact IH|].
  rewrite E. exact IH.
Qed.

(** The end of a goroutine that left its loop with [carryOn] false. *)
Lemma finish_quiet ch w g :
  leaver ch w = Some g ->
  g_carryOn g = false ->
  _processMutex w = false ->
  ch ∉ closed w ->
  exists w',
    finish procs ch w = Ret tt w'
    /\ _processes w' = without (g_proc g) (_processes w)
    /\ _messengers w' = delete (g_proc g) (_messengers w)
    /\ closed w' = {[ch]} ∪ closed w
    /\ goroutines w'
       = List.filter (fun g' => negb (Nat.eqb (g_chan g') ch)) (goroutines w)
    /\ next_chan w' = next_chan w
    /\ _processMutex w' = false.
Proof.
  intros Hg Hcarry Hfree Hopen. unfold finish. rewrite Hg, Hcarry.
  unfold bind, defer.
  assert (Hloop : exists w1,
             after_loop procs (g_proc g) false w = Ret tt w1
             /\ same_registry w w1).
  { unfold after_loop. exec.
    match goal with
    | |- context [completion procs (g_proc g) ?w0] =>
        destruct (completion_spec (g_proc g) w0) as (w1 & Hrun1 & _ & _ & _ & Hreg)
    end.
    rewrite Hrun1. exists w1. split; [|exact Hreg].
    unfold chain. destruct (NextProcess (procs (g_proc g))); reflexivity. }
  destruct Hloop as (w1 & Hrun1 & Hps1 & Hms1 & Hm1 & Hc1 & Hn1 & Hgs1).
  rewrite Hrun1.
  assert (Hfree1 : _processMutex w1 = false) by congruence.
  assert (Hopen1 : ch ∉ closed w1) by (rewrite Hc1; exact Hopen).
  destruct (deregister_spec (g_proc g) ch w1 Hfree1 Hopen1)
    as (w2 & Hrun2 & _ & Hps2 & Hms2 & Hc2 & Hm2 & Hgs2 & Hn2).
  rewrite Hrun2. exec. eexists. split; [reflexivity|]. simpl.
  rewrite Hps2, Hms2, Hc2, Hgs2, Hn2, Hps1, Hms1, Hc1, Hgs1, Hn1. auto 10.
Qed.


(** ** A process that is its own successor *)

Lemma after_loop_successor p w n s :
  _processMutex w = false ->
  queried procs p true w = Some (Some n, s) ->
  successor_init procs p s n w = None ->
  exists w',
    after_loop procs p true w = Ret tt w'
    /\ _processes w' = _processes w ++ [n]
    /\ _messengers w' = <[n := next_chan w]> (_messengers w)
    /\ goroutines w' = goroutines w ++ [mkGoroutine n (next_chan w) true true]
    /\ next_chan w' = S (next_chan w)
    /\ closed w' = closed w
    /\ _processMutex w' = false.
Proof.
  intros Hfree Hq Hinit.
  apply queried_iff in Hq as (_ & f & Hnext & Hf).
  unfold after_loop. exec.
  match goal with
  | |- context [completion procs p ?w0] =>
      destruct (completion_spec p w0)
        as (w1 & Hrun1 & _ & Hobj1 & Hoth1 & Hps1 & Hms1 & Hm1 & Hc1 & Hn1 & Hgs1)
  end.
  simpl in *. rewrite Hrun1. rewrite store_same in Hobj1.
  assert (Hs2 : objs w1 p = after_completion procs p w).
  { rewrite Hobj1. unfold after_completion, found_callback, after_cleanup.
    destruct (BaseProcessField (procs p) (CleanupProcess (procs p) (objs w p)))
      as [| |[cb|]]; reflexivity. }
  assert (Hst : store p s (objs w1) n = store p s (objs w) n).
  { unfold store. destruct (Nat.eqb n p) eqn:E; [reflexivity|].
    apply Nat.eqb_neq in E. rewrite (Hoth1 n E). apply store_other, E. }
  unfold chain. rewrite Hnext. exec. rewrite Hs2, Hf. simpl.
  rewrite Hfree in Hm1.
  match goal with
  | |- context [RunProcess procs n ?w2] =>
      destruct (RunProcess_spec n w2 Hm1)
        as (w' & Hrun & _ & Hps & Hgs & Hms & Hn & _ & Hm & Hc)
  end.
  simpl in *. unfold successor_init in Hinit. rewrite Hst, Hinit in *.
  exists w'. rewrite Hrun, Hps, Hgs, Hms, Hn, Hc, Hps1, Hms1, Hc1, Hn1, Hgs1.
  auto 10.
Qed.

Lemma find_filter_other (gs : list goroutine) ch ch' :
  ch' <> ch ->
  List.find (fun g => Nat.eqb (g_chan g) ch')
            (List.filter (fun g => negb (Nat.eqb (g_chan g) ch)) gs)
  = List.find (fun g => Nat.eqb (g_chan g) ch') gs.
Proof.
  intros Hne. induction gs as [|g gs IH]; simpl; [reflexivity|].
  destruct (Nat.eqb (g_chan g) ch) eqn:E; simpl.
  - apply Nat.eqb_eq in E.
    assert (Hn : Nat.eqb (g_chan g) ch' = false)
      by (apply Nat.eqb_neq; congruence).
    rewrite Hn. exact IH.
  - destruct (Nat.eqb (g_chan g) ch'); [reflexivity|exact IH].
Qed.


(** ** Diagnostics of the loop *)

Lemma stops_None_silent e : stops e = None -> diagnostic e = [].
Proof.
  destruct e as [| | | q more [err|] | q msg [err|] | | | | | | | | | | | | | | | |];
    simpl; try reflexivity; try discriminate.
  destruct more; discriminate.
Qed.

Lemma receive_diagnostic g msg w :
  exists w' evs,
    receive procs g msg w = Ret tt w'
    /\ trace w' = trace w ++ evs
    /\ stderr w' = stderr w
         ++ match last evs with Some e => diagnostic e | None => [] end.
Proof.
  unfold receive, dispatch. exec.
  destruct (type_switch msg); exec.
  - eexists _, [EReceive (g_proc g) msg]. split; [reflexivity|]. simpl.
    rewrite app_nil_r. auto.
  - destruct (Tick (procs (g_proc g)) (objs w (g_proc g))) as [[more [e|]] s];
      exec.
    + eexists _, [EReceive (g_proc g) msg; ETick (g_proc g) more (Some e)].
      split; [reflexivity|]. simpl. rewrite <- app_assoc. auto.
    + eexists _, [EReceive (g_proc g) msg; ETick (g_proc g) more None].
      split; [reflexivity|]. simpl. rewrite <- app_assoc, app_nil_r. auto.
  - destruct (HandleMessage (procs (g_proc g)) msg (objs w (g_proc g)))
      as [[e|] s]; exec.
    + eexists _, [EReceive (g_proc g) msg; EHandleMessage (g_proc g) msg (Some e)].
      split; [reflexivity|]. simpl. rewrite <- app_assoc. auto.
    + eexists _, [EReceive (g_proc g) msg; EHandleMessage (g_proc g) msg None].
      split; [reflexivity|]. simpl. rewrite <- app_assoc, app_nil_r. auto.
Qed.

(** X14: while a goroutine goes through its mailbox, it writes to
    standard error only as its last act and only when [Tick] or
    [HandleMessage] returned an error: one line, with the text of the
    error.  A Quit message and a [Tick] that returns false end the loop
    without a line. *)
Theorem loop_writes_line_on_error_only mailbox : forall w p ch,
  goroutine_of ch w = Some (mkGoroutine p ch true true) ->
  exists w' loop_ev,
    feed procs ch mailbox w = Ret tt w'
    /\ trace w' = trace w ++ loop_ev
    /\ stderr w' = stderr w
         ++ match last loop_ev with Some e => diagnostic e | None => [] end.
Proof.
  induction mailbox as [|msg rest IH]; intros w p ch Hg.
  - exists w, []. simpl. rewrite !app_nil_r. auto.
  - simpl. unfold receiver at 1. rewrite Hg. simpl. unfold bind.
    destruct (receive_spec (mkGoroutine p ch true true) msg w eq_refl eq_refl Hg)
      as (w1 & evs1 & Hrun & Htr & Hne & _ & Hg1 & _).
    destruct (receive_diagnostic (mkGoroutine p ch true true) msg w)
      as (w1' & evs1' & Hrun' & Htr' & Herr).
    assert (w1' = w1) by congruence. subst w1'.
    assert (evs1' = evs1)
      by (apply (app_inv_head (trace w)); congruence).
    subst evs1'. clear Hrun' Htr'.
    simpl in Hg1. rewrite Hrun.
    destruct (fst (flags_after evs1)) eqn:Halive.
    + assert (Hsilent : match last evs1 with
                          | Some e => diagnostic e
                          | None => []
                          end = []).
      { unfold flags_after in Halive.
        destruct (last evs1) as [e|]; [|reflexivity].
        destruct (stops e) eqn:Hs; [discriminate Halive|].
        apply stops_None_silent, Hs. }
      assert (Hquiet : stderr w1 = stderr w)
        by (rewrite Herr, Hsilent; apply app_nil_r).
      rewrite (flags_after_alive _ Halive) in Hg1.
      destruct (IH w1 p ch Hg1) as (w2 & evs2 & Hrun2 & Htr2 & Herr2).
      exists w2, (evs1 ++ evs2). split; [exact Hrun2|].
      split; [rewrite Htr2, Htr, app_assoc; reflexivity|].
      rewrite Herr2, Hquiet.
      destruct evs2 as [|e evs2 _] using rev_ind.
      * rewrite (app_nil_r evs1), Hsilent. reflexivity.
      * rewrite app_assoc, !last_snoc. reflexivity.
    + rewrite feed_dead by (unfold receiver; rewrite Hg1; reflexivity).
      exists w1, evs1. auto.
Qed.

(** ** Processes with the methods of BaseProcess *)

Lemma feed_base_methods p ch mailbox : forall w,
  has_base_methods (procs p) ->
  goroutine_of ch w = Some (mkGoroutine p ch true true) ->
  exists w',
    feed procs ch mailbox w = Ret tt w'
    /\ (receiver ch w' = None
        <-> exists msg, In msg mailbox /\ type_switch msg <> Default).
Proof.
  intros w Hbase. revert w. destruct Hbase as (_ & Hhandle & Htick).
  induction mailbox as [|msg rest IH]; intros w Hg.
  - exists w. split; [reflexivity|]. unfold receiver. rewrite Hg. simpl.
    split; [discriminate|]. intros (msg & [] & _).
  - simpl. unfold receiver at 1. rewrite Hg. simpl. unfold bind.
    unfold receive, dispatch. simpl.
    destruct (type_switch msg) eqn:Hsw; exec.
    + rewrite feed_dead.
      * eexists. split; [reflexivity|].
        split; [|intros _; unfold receiver, goroutine_of; simpl;
                 rewrite (find_set_flags ch false false _ _ Hg); reflexivity].
        intros _. exists msg. split; [left; reflexivity|].
        rewrite Hsw. discriminate.
      * unfold receiver, goroutine_of. simpl.
        rewrite (find_set_flags ch false false _ _ Hg). reflexivity.
    + rewrite Htick. exec. rewrite feed_dead.
      * eexists. split; [reflexivity|].
        split; [|intros _; unfold receiver, goroutine_of; simpl;
                 rewrite (find_set_flags ch false true _ _ Hg); reflexivity].
        intros _. exists msg. split; [left; reflexivity|].
        rewrite Hsw. discriminate.
      * unfold receiver, goroutine_of. simpl.
        rewrite (find_set_flags ch false true _ _ Hg). reflexivity.
    + rewrite Hhandle. exec.
      match goal with
      | |- context [feed procs ch rest ?w1] =>
          destruct (IH w1) as (w' & Hrun & Hiff)
      end.
      { unfold goroutine_of. simpl.
        apply (find_set_flags ch true true _ _ Hg). }
      exists w'. split; [exact Hrun|]. rewrite Hiff.
      split.
      * intros (m & Hin & Hm). exists m. split; [right; exact Hin|exact Hm].
      * intros (m & [<-|Hin] & Hm); [congruence|eauto].
Qed.






End Theory.

Lemma dispatch_forwards_other_types_witness :
  exists w',
    dispatch sample 1 val_quit true true start = Ret (true, true) w'
    /\ trace w' = [EHandleMessage 1 val_quit None]
    /\ objs w' = store 1 2 (objs start).
Proof.
  apply (dispatch_forwards_other_types sample 1 val_quit true true start None 2).
  - intros n. discriminate.
  - intros n. discriminate.
  - reflexivity.
Defined.

(** * The sample worlds *)

Lemma ready_start : ready start.
Proof.
  split; [reflexivity|]. intros ch _. split; [reflexivity|].
  simpl. apply not_elem_of_empty.
Qed.

(** C1: with processes 1, 2 and 3 running, [NewStateNow] never returns,
    however long it waits: each process receives [quit{}], which is not a
    [*quit], hands it to [HandleMessage] and stays in its loop; the
    registry keeps its three processes and the state is never set. *)
Theorem NewStateNow_sends_no_quit fuel state views :
  exists w',
    NewStateNow sample fuel state views three_running = Hang w'
    /\ trace w' = trace three_running
                  ++ [EReceive 1 val_quit; EHandleMessage 1 val_quit None;
                      EReceive 2 val_quit; EHandleMessage 2 val_quit None;
                      EReceive 3 val_quit; EHandleMessage 3 val_quit None]
    /\ _processes w' = [1; 2; 3]
    /\ Forall (fun g => g_alive g = true) (goroutines w')
    /\ _state w' = None.
Proof.
  exists quit_sent.
  assert (Hsend : NotifyAllProcesses sample val_quit three_running
                  = Ret tt quit_sent) by (vm_compute; reflexivity).
  assert (Hwait : forall n, wait_processes sample n quit_sent = Hang quit_sent).
  { induction n as [|n IH]; [vm_compute; reflexivity|].
    change (wait_processes sample (S n) quit_sent)
      with (bind (Gosched sample) (fun _ => wait_processes sample n) quit_sent).
    unfold bind.
    assert (Hyield : Gosched sample quit_sent = Ret tt quit_sent)
      by (vm_compute; reflexivity).
    rewrite Hyield. exact IH. }
  split.
  - unfold NewStateNow, bind. rewrite Hsend, Hwait. reflexivity.
  - split; [vm_compute; reflexivity|]. split; [vm_compute; reflexivity|].
    split; [|vm_compute; reflexivity].
    vm_compute. repeat constructor.
Qed.

(** With [&quit{}], the message that [Close] sends, the three goroutines
    end, the registry drains and the state is set. *)
Lemma pointer_quit_drains :
  exists w',
    bind (NotifyAllProcesses sample ptr_quit)
         (fun _ => bind (wait_processes sample 1)
                        (fun _ => setState 7 [])) three_running
    = Ret tt w'
    /\ _processes w' = []
    /\ _state w' = Some 7.
Proof.
  eexists. split; [vm_compute; reflexivity|]. split; reflexivity.
Qed.

Lemma notify_without_open_mailbox_witness :
  (_messengers stale !! 7 = None
   \/ exists ch, _messengers stale !! 7 = Some ch /\ ch ∈ closed stale)
  /\ NotifyProcess sample 7 ptr_tick stale = Ret tt stale.
Proof.
  assert (H : _messengers stale !! 7 = None
              \/ exists ch, _messengers stale !! 7 = Some ch /\ ch ∈ closed stale).
  { right. exists 3. split; [reflexivity|]. apply elem_of_singleton. reflexivity. }
  split; [exact H|].
  exact (notify_without_open_mailbox sample 7 ptr_tick stale H).
Defined.

Lemma init_error_aborts_run_witness :
  InitProcess (sample 5) (objs start 5) = (Some "no display", 2)
  /\ exists w',
       RunProcess sample 5 start = Ret tt w'
       /\ _processes w' = _processes start
       /\ _messengers w' = _messengers start
       /\ goroutines w' = goroutines start
       /\ closed w' = closed start
       /\ next_chan w' = next_chan start
       /\ trace w' = trace start ++ [ERunProcess 5; EInitProcess 5 (Some "no display")]
       /\ stderr w' = stderr start
            ++ ["error during process initialization: " +:+ "no display" +:+ nl]
       /\ (forall msg, _messengers start !! 5 = None ->
                       NotifyProcess sample 5 msg w' = Ret tt w').
Proof.
  split; [reflexivity|].
  exact (init_error_aborts_run sample 5 start "no display" 2 eq_refl).
Defined.

Lemma run_worker_done : run sample 4 three_ticks start = Ret tt worker_done.
Proof. vm_compute. reflexivity. Qed.



Lemma worker_stopped_open : 0 ∉ closed worker_stopped.
Proof. change (0 ∉ (∅ : gset nat)). apply not_elem_of_empty. Qed.


Lemma worker_running_open : 0 ∉ closed worker_running.
Proof. change (0 ∉ (∅ : gset nat)). apply not_elem_of_empty. Qed.


Lemma chained_stopped_open : 0 ∉ closed chained_stopped.
Proof. change (0 ∉ (∅ : gset nat)). apply not_elem_of_empty. Qed.





(** * Instances of the further properties *)

Lemma feed_ignores_rest_witness :
  feed sample 0 [ptr_quit] worker_running
  = Ret tt (world_of (feed sample 0 [ptr_quit] worker_running))
  /\ receiver 0 (world_of (feed sample 0 [ptr_quit] worker_running)) = None
  /\ feed sample 0 ([ptr_quit] ++ [ptr_tick]) worker_running
     = Ret tt (world_of (feed sample 0 [ptr_quit] worker_running)).
Proof.
  assert (H1 : feed sample 0 [ptr_quit] worker_running
               = Ret tt (world_of (feed sample 0 [ptr_quit] worker_running)))
    by (vm_compute; reflexivity).
  assert (H2 : receiver 0 (world_of (feed sample 0 [ptr_quit] worker_running))
               = None) by (vm_compute; reflexivity).
  split; [exact H1|]. split; [exact H2|].
  exact (feed_ignores_rest sample 0 [ptr_quit] [ptr_tick] worker_running _ H1 H2).
Defined.

Lemma deregister_removes_first_witness :
  _processMutex worker_running = false
  /\ (0 ∉ closed worker_running)
  /\ exists w',
       deregister 4 0 worker_running = Ret tt w'
       /\ ((~ In 4 (_processes worker_running)
            /\ _processes w' = _processes worker_running)
           \/ exists before behind,
                _processes worker_running = before ++ 4 :: behind
                /\ ~ In 4 before
                /\ _processes w' = before ++ behind)
       /\ _messengers w' !! 4 = None
       /\ 0 ∈ closed w'
       /\ _processMutex w' = false.
Proof.
  split; [reflexivity|]. split; [exact worker_running_open|].
  exact (deregister_removes_first sample 4 0 worker_running eq_refl worker_running_open).
Defined.

Lemma NewState_start :
  NewState_goroutine sample 0 7 [8] start
  = Ret tt (world_of (setState 7 [8] start)).
Proof. vm_compute. reflexivity. Qed.


Lemma NewStateNow_start :
  NewStateNow sample 0 7 [8] start = Ret tt (world_of (setState 7 [8] start)).
Proof. vm_compute. reflexivity. Qed.


Lemma NewStateNow_empty_registry_witness :
  _processes start = []
  /\ NewStateNow sample 0 7 [8] start = setState 7 [8] start.
Proof.
  split; [reflexivity|].
  exact (NewStateNow_empty_registry sample 0 7 [8] start eq_refl).
Defined.

Lemma three_running_NoDup : NoDup (_processes three_running).
Proof.
  change (NoDup [1; 2; 3]).
  repeat (constructor; [rewrite list_elem_of_In; simpl; lia|]). constructor.
Qed.

Lemma three_running_served p :
  In p (_processes three_running) -> served three_running p.
Proof.
  change (In p [1; 2; 3] -> served three_running p).
  intros [<-|[<-|[<-|[]]]].
  - exists 0. split; [vm_compute; reflexivity|].
    split; [change (0 ∉ (∅ : gset nat)); apply not_elem_of_empty|reflexivity].
  - exists 1. split; [vm_compute; reflexivity|].
    split; [change (1 ∉ (∅ : gset nat)); apply not_elem_of_empty|reflexivity].
  - exists 2. split; [vm_compute; reflexivity|].
    split; [change (2 ∉ (∅ : gset nat)); apply not_elem_of_empty|reflexivity].
Qed.

Lemma three_running_own : own_mailboxes three_running (_processes three_running).
Proof.
  change (own_mailboxes three_running [1; 2; 3]).
  intros p q ch Hp Hq.
  destruct Hp as [<-|[<-|[<-|[]]]]; destruct Hq as [<-|[<-|[<-|[]]]];
    intros H1 H2; try reflexivity;
    vm_compute in H1; vm_compute in H2; congruence.
Qed.



Lemma started_process_is_served_witness :
  ready start
  /\ fst (InitProcess (sample 1) (objs start 1)) = None
  /\ exists w',
       RunProcess sample 1 start = Ret tt w'
       /\ _processes w' = _processes start ++ [1]
       /\ _messengers w' !! 1 = Some (next_chan start)
       /\ served w' 1
       /\ forall msg,
            exists w'' rest,
              NotifyProcess sample 1 msg w' = Ret tt w''
              /\ trace w'' = trace w' ++ EReceive 1 msg :: rest
              /\ Forall (fun e => is_receive e = false) rest.
Proof.
  split; [exact ready_start|]. split; [reflexivity|].
  exact (started_process_is_served sample 1 start ready_start eq_refl).
Defined.


Lemma self_chained_ready :
  ready (world_of (bind (RunProcess self_chained 8)
                        (fun _ => feed self_chained 0 three_ticks) start)).
Proof.
  split; [reflexivity|]. intros ch Hch. change (1 <= ch) in Hch.
  split.
  - destruct ch as [|ch]; [lia|]. reflexivity.
  - change (ch ∉ (∅ : gset nat)). apply not_elem_of_empty.
Qed.


Lemma loop_writes_line_on_error_only_witness :
  goroutine_of 0 worker_running = Some (mkGoroutine 4 0 true true)
  /\ exists w' loop_ev,
       feed sample 0 [NilMsg] worker_running = Ret tt w'
       /\ trace w' = trace worker_running ++ loop_ev
       /\ stderr w' = stderr worker_running
            ++ match last loop_ev with Some e => diagnostic e | None => [] end.
Proof.
  split; [reflexivity|].
  exact (loop_writes_line_on_error_only sample [NilMsg] worker_running 4 0 eq_refl).
Defined.

Lemma base_process_has_base_methods : has_base_methods (sample 1).
Proof. repeat split. Qed.


(** * The event bus *)

Lemma gotype_eqb_eq t1 t2 : Bus.gotype_eqb t1 t2 = true <-> t1 = t2.
Proof.
  revert t2. induction t1 as [| |n1|e1 IH]; intros [| |n2|e2]; simpl;
    try (split; [discriminate|discriminate]); try tauto.
  - rewrite String.eqb_eq. split; [intros ->; reflexivity|intros [= ->]; reflexivity].
  - rewrite IH. split; [intros ->; reflexivity|intros [= ->]; reflexivity].
Qed.

Lemma types_eqb_eq l1 l2 : Bus.types_eqb l1 l2 = true <-> l1 = l2.
Proof.
  revert l2. induction l1 as [|t1 l1 IH]; intros [|t2 l2]; simpl;
    try (split; [discriminate|discriminate]); try tauto.
  rewrite andb_true_iff, gotype_eqb_eq, IH.
  split; [intros [-> ->]; reflexivity|intros [= -> ->]; auto].
Qed.

Lemma types_of_cons v values types :
  Bus.types_of (v :: values) = Some types ->
  exists t payload rest,
    v = Msg t payload /\ types = t :: rest /\ Bus.types_of values = Some rest.
Proof.
  unfold Bus.types_of. simpl. destruct v as [|t payload]; simpl; [discriminate|].
  destruct (mapM _ values) as [rest|]; simpl; [|discriminate].
  intros [= <-]. exists t, payload, rest. auto.
Qed.

(** The inner loop of [Signal] agrees with equality of the type lists. *)
Lemma compare_types_fits params : forall values types,
  Bus.types_of values = Some types ->
  length params = length values ->
  Bus.compare_types params values <> Bus.ZeroValue
  /\ (Bus.compare_types params values = Bus.Fits
      <-> Bus.types_eqb params types = true).
Proof.
  induction params as [|t params IH]; intros [|v values] types Htypes Hlen;
    simpl in Hlen; try discriminate.
  - injection Htypes as <-. simpl. split; [discriminate|tauto].
  - apply types_of_cons in Htypes as (tv & payload & rest & -> & -> & Hrest).
    simpl. destruct (Bus.gotype_eqb t tv); simpl.
    + apply IH; [exact Hrest|lia].
    + split; [discriminate|]. split; discriminate.
Qed.

Lemma call_listeners_fitting eventType values types l : forall s,
  Forall (fun f => Bus.is_func f = true) l ->
  Bus.types_of values = Some types ->
  exists s',
    Bus.call_listeners eventType values l s = Bus.Returns s'
    /\ Bus.calls s' = Bus.calls s
         ++ map (fun id => (id, values)) (Bus.fitting types l)
    /\ length (Bus.stderr s') + length (Bus.fitting types l)
       = length (Bus.stderr s) + length l
    /\ Bus._bus s' = Bus._bus s.
Proof.
  intros s Hfuncs Htypes. revert s.
  assert (Hlen_types : length types = length values).
  { clear Hfuncs. revert types Htypes.
    induction values as [|v values IH]; intros types Htypes.
    - injection Htypes as <-. reflexivity.
    - apply types_of_cons in Htypes as (t & pl & rest & _ & -> & Hrest).
      simpl. rewrite (IH rest Hrest). reflexivity. }
  induction Hfuncs as [|f l Hf _ IH]; intros s.
  - exists s. simpl. rewrite app_nil_r. auto.
  - destruct f as [id params|id]; [|discriminate Hf]. simpl.
    destruct (Nat.eqb (length params) (length values)) eqn:Harity; simpl.
    + apply Nat.eqb_eq in Harity.
      destruct (compare_types_fits params values types Htypes Harity)
        as [Hnz Hfits].
      destruct (Bus.compare_types params values) eqn:Hcmp.
      * assert (Heq : Bus.types_eqb params types = true) by (apply Hfits; reflexivity).
        rewrite Heq. destruct (IH (Bus.add_call id values s))
          as (s' & Hrun & Hcalls & Herr & Hbus).
        exists s'. rewrite Hrun, Hcalls. simpl. rewrite <- app_assoc.
        simpl in *. repeat split; auto. lia.
      * assert (Hne : Bus.types_eqb params types = false).
        { destruct (Bus.types_eqb params types); [|reflexivity].
          assert (Bus.Differs need have = Bus.Fits) by (apply Hfits; reflexivity).
          discriminate. }
        rewrite Hne. destruct (IH (Bus.eprint (Bus.type_warning eventType need have) s))
          as (s' & Hrun & Hcalls & Herr & Hbus).
        exists s'. rewrite Hrun, Hcalls. simpl in *.
        rewrite length_app in Herr. simpl in Herr. repeat split; auto. lia.
      * congruence.
    + assert (Hne : Bus.types_eqb params types = false).
      { destruct (Bus.types_eqb params types) eqn:E; [|reflexivity].
        apply types_eqb_eq in E. subst params.
        rewrite Hlen_types, Nat.eqb_refl in Harity. discriminate. }
      rewrite Hne.
      destruct (IH (Bus.eprint (Bus.arity_warning eventType (length values)
                                  (length params)) s))
        as (s' & Hrun & Hcalls & Herr & Hbus).
      exists s'. rewrite Hrun, Hcalls. simpl in *.
      rewrite length_app in Herr. simpl in Herr. repeat split; auto. lia.
Qed.

Lemma Signal_spec eventType values types l s :
  Bus._bus s !! eventType = Some l ->
  Forall (fun f => Bus.is_func f = true) l ->
  Bus.types_of values = Some types ->
  exists s',
    Bus.Signal eventType values s = Bus.Returns s'
    /\ Bus.calls s' = Bus.calls s
         ++ map (fun id => (id, values)) (Bus.fitting types l)
    /\ length (Bus.stderr s') + length (Bus.fitting types l)
       = length (Bus.stderr s) + length l
    /\ Bus._bus s' = Bus._bus s.
Proof.
  intros Hl Hfuncs Htypes. unfold Bus.Signal. rewrite Hl.
  destruct l as [|f l].
  - exists s. simpl. rewrite app_nil_r. auto.
  - change (Nat.eqb (length (f :: l)) 0) with false. cbv iota.
    apply call_listeners_fitting; assumption.
Qed.


Lemma remove_selected_id f l : Bus.remove_selected f l = l.
Proof. induction l as [|e l IH]; simpl; [reflexivity|]. rewrite IH. reflexivity. Qed.

(** X17: [RemoveListener] never unregisters anything: for an event type
    that has listeners it returns with the bus exactly as it was, and
    for an event type that was never registered it panics. *)
Theorem RemoveListener_removes_nothing eventType f s :
  Bus.RemoveListener eventType f s
  = match Bus._bus s !! eventType with
    | Some _ => Bus.Returns s
    | None => Bus.Panics s
    end.
Proof.
  unfold Bus.RemoveListener.
  destruct (Bus._bus s !! eventType) as [l|] eqn:Hl; [|reflexivity].
  rewrite remove_selected_id, (insert_id _ _ _ Hl). destruct s; reflexivity.
Qed.


Lemma foldr_delete_in (l : list (nat * list Bus.callback))
    (b : gmap nat (list Bus.callback)) (k : nat) :
  In k (map fst l) ->
  foldr (fun entry b => delete (fst entry) b) b l !! k = None.
Proof.
  induction l as [|[k' v] l IH]; simpl; [intros []|].
  intros Hin. destruct (decide (k' = k)) as [->|Hne].
  - apply lookup_delete_eq.
  - rewrite lookup_delete_ne by auto. apply IH.
    destruct Hin as [?|?]; [contradiction|assumption].
Qed.

Lemma foldr_delete_absent (l : list (nat * list Bus.callback))
    (b : gmap nat (list Bus.callback)) (k : nat) :
  b !! k = None ->
  foldr (fun entry b => delete (fst entry) b) b l !! k = None.
Proof.
  intros Hb. induction l as [|[k' v] l IH]; simpl; [exact Hb|].
  destruct (decide (k' = k)) as [->|Hne].
  - apply lookup_delete_eq.
  - rewrite lookup_delete_ne by auto. exact IH.
Qed.

(** X19: [Clear] returns with an empty bus, on which [Signal] calls
    nothing and writes nothing, whatever the event type and the
    arguments. *)
Theorem Clear_empties s :
  exists s',
    Bus.Clear s = Bus.Returns s'
    /\ Bus._bus s' = ∅
    /\ Bus.calls s' = Bus.calls s
    /\ forall eventType values, Bus.Signal eventType values s' = Bus.Returns s'.
Proof.
  eexists. split; [reflexivity|]. simpl.
  assert (Hempty : foldr (fun entry b => delete (fst entry) b) (Bus._bus s)
                         (map_to_list (Bus._bus s)) = ∅).
  { apply map_eq. intros k. rewrite lookup_empty.
    destruct (Bus._bus s !! k) as [v|] eqn:Hk.
    - apply foldr_delete_in. apply in_map_iff. exists (k, v).
      split; [reflexivity|]. apply list_elem_of_In, elem_of_map_to_list.
      exact Hk.
    - apply foldr_delete_absent, Hk. }
  split; [exact Hempty|]. split; [reflexivity|].
  intros eventType values. unfold Bus.Signal. simpl.
  rewrite Hempty, lookup_empty. reflexivity.
Qed.

(** X20: [AddListener] stores funcs only: a value that is not a func
    leaves the bus as it is and costs one line on standard error, and a
    bus whose callbacks are all funcs stays so after any
    [AddListener]. *)
Theorem AddListener_stores_funcs_only eventType f s :
  (forall e l, Bus._bus s !! e = Some l ->
               Forall (fun f => Bus.is_func f = true) l) ->
  exists s',
    Bus.AddListener eventType f s = Bus.Returns s'
    /\ (Bus.is_func f = false ->
        Bus._bus s' = Bus._bus s
        /\ Bus.stderr s'
           = Bus.stderr s ++ ["cannot register non-func callback!" +:+ nl])
    /\ forall e l, Bus._bus s' !! e = Some l ->
                   Forall (fun f => Bus.is_func f = true) l.
Proof.
  intros Hfuncs. destruct f as [id params|id]; simpl.
  - eexists. split; [reflexivity|]. split; [discriminate|].
    intros e l. simpl.
    destruct (decide (e = eventType)) as [->|Hne].
    + destruct (Bus._bus s !! eventType) as [old|] eqn:Hold; simpl.
      * rewrite lookup_alter_eq, Hold. simpl. intros [= <-].
        apply Forall_app. split; [apply (Hfuncs eventType); exact Hold|].
        constructor; [reflexivity|constructor].
      * rewrite lookup_alter_eq, lookup_insert_eq. simpl. intros [= <-].
        constructor; [reflexivity|constructor].
    + destruct (Bus._bus s !! eventType) as [old|] eqn:Hold; simpl.
      * rewrite lookup_alter_ne by auto. apply Hfuncs.
      * rewrite lookup_alter_ne, lookup_insert_ne by auto. apply Hfuncs.
  - eexists. split; [reflexivity|]. simpl. split; [auto|]. exact Hfuncs.
Qed.

(** X21: a nil argument makes [Signal] panic at the first listener: when
    that listener has as many parameters as there are arguments and the
    first argument is nil, taking the type of the argument panics before
    any listener is called. *)
Theorem Signal_nil_argument_panics eventType id t params values rest s :
  Bus._bus s !! eventType = Some (Bus.Func id (t :: params) :: rest) ->
  length params = length values ->
  Bus.Signal eventType (NilMsg :: values) s = Bus.Panics s.
Proof.
  intros Hl Hlen. unfold Bus.Signal. rewrite Hl. simpl.
  rewrite Hlen, Nat.eqb_refl. reflexivity.
Qed.

Lemma sample_bus_lookup :
  Bus._bus sample_bus !! 1
  = Some [Bus.Func 10 [Tnamed "string"]; Bus.Func 11 [];
          Bus.Func 12 [Tnamed "string"]].
Proof. apply lookup_singleton_eq. Qed.

Lemma sample_bus_funcs e l :
  Bus._bus sample_bus !! e = Some l -> Forall (fun f => Bus.is_func f = true) l.
Proof.
  destruct (decide (e = 1)) as [->|Hne].
  - rewrite sample_bus_lookup. intros [= <-]. repeat constructor.
  - unfold sample_bus. simpl. rewrite lookup_singleton_ne by auto. discriminate.
Qed.



Lemma AddListener_stores_funcs_only_witness :
  (forall e l, Bus._bus sample_bus !! e = Some l ->
               Forall (fun f => Bus.is_func f = true) l)
  /\ exists s',
       Bus.AddListener 1 (Bus.NotFunc 3) sample_bus = Bus.Returns s'
       /\ (Bus.is_func (Bus.NotFunc 3) = false ->
           Bus._bus s' = Bus._bus sample_bus
           /\ Bus.stderr s'
              = Bus.stderr sample_bus ++ ["cannot register non-func callback!" +:+ nl])
       /\ forall e l, Bus._bus s' !! e = Some l ->
                      Forall (fun f => Bus.is_func f = true) l.
Proof.
  split; [exact sample_bus_funcs|].
  exact (AddListener_stores_funcs_only 1 (Bus.NotFunc 3) sample_bus
           sample_bus_funcs).
Defined.

Lemma Signal_nil_argument_panics_witness :
  Bus._bus sample_bus !! 1
  = Some (Bus.Func 10 (Tnamed "string" :: [])
          :: [Bus.Func 11 []; Bus.Func 12 [Tnamed "string"]])
  /\ length (@nil gotype) = length (@nil message)
  /\ Bus.Signal 1 (NilMsg :: []) sample_bus = Bus.Panics sample_bus.
Proof.
  split; [exact sample_bus_lookup|]. split; [reflexivity|].
  exact (Signal_nil_argument_panics 1 10 (Tnamed "string") [] []
           [Bus.Func 11 []; Bus.Func 12 [Tnamed "string"]] sample_bus
           sample_bus_lookup eq_refl).
Defined.
